(** * Symbolic models of [strcmp], [strlen] and [strcpy]

    A shallow embedding of [manticore/native/models.py].  Values are
    Python's [Union[int, BitVec]]; the while-loops of the source carry
    fuel; the models return an outcome together with the state they
    leave behind. *)

From Stdlib Require Import ZArith List Bool Lia Arith Sorted.
From Stdlib Require String.
Import ListNotations.
Local Open Scope Z_scope.

(** ** Bit-vector expressions *)

Module Smt.

(** Modelled from the spec: the expression nodes of section 3 (the
    classes of [core.smtlib] are not part of the sources).  A width is a
    number of bits, a variable is identified by its width and a number. *)
Inductive expr : Type :=
| BitVecConstant (width : nat) (value : Z)
| BitVecVariable (width : nat) (id : nat)
| ZeroExtend (width : nat) (inner : expr)
| Subtract (a b : expr)
| IfThenElse (cond : bexpr) (then_ else_ : expr)
with bexpr : Type :=
| Equal (a b : expr)
| NotEqual (a b : expr).

Scheme expr_ind' := Induction for expr Sort Prop
  with bexpr_ind' := Induction for bexpr Sort Prop.
Combined Scheme expr_bexpr_ind from expr_ind', bexpr_ind'.

Fixpoint width_of (e : expr) : nat :=
  match e with
  | BitVecConstant w _ => w
  | BitVecVariable w _ => w
  | ZeroExtend w _ => w
  | Subtract a _ => width_of a
  | IfThenElse _ t _ => width_of t
  end.

Definition modulus (w : nat) : Z := 2 ^ Z.of_nat w.

(** An assignment gives every variable (width, id) an integer; a
    variable of width [w] is read modulo [2^w]. *)
Definition env : Type := nat -> nat -> Z.

Fixpoint eval (rho : env) (e : expr) : Z :=
  match e with
  | BitVecConstant w v => v mod modulus w
  | BitVecVariable w x => rho w x mod modulus w
  | ZeroExtend w i => eval rho i mod modulus w
  | Subtract a b => (eval rho a - eval rho b) mod modulus (width_of a)
  | IfThenElse c t f => if beval rho c then eval rho t else eval rho f
  end
with beval (rho : env) (c : bexpr) : bool :=
  match c with
  | Equal a b => eval rho a =? eval rho b
  | NotEqual a b => negb (eval rho a =? eval rho b)
  end.

(** Width coherence: both branches of a conditional have one width, both
    operands of a subtraction or comparison have one width. *)
Fixpoint wf_expr (e : expr) : bool :=
  match e with
  | BitVecConstant _ _ | BitVecVariable _ _ => true
  | ZeroExtend w i => wf_expr i && (width_of i <=? w)%nat
  | Subtract a b => wf_expr a && wf_expr b && (width_of a =? width_of b)%nat
  | IfThenElse c t f =>
      wf_bexpr c && wf_expr t && wf_expr f && (width_of t =? width_of f)%nat
  end
with wf_bexpr (c : bexpr) : bool :=
  match c with
  | Equal a b | NotEqual a b =>
      wf_expr a && wf_expr b && (width_of a =? width_of b)%nat
  end.

(** The constraint set of one path: an ordered collection of formulas. *)
Definition ConstraintSet : Type := list bexpr.

Definition holds (rho : env) (cs : ConstraintSet) : Prop :=
  Forall (fun c => beval rho c = true) cs.

Definition satisfiable (cs : ConstraintSet) : Prop := exists rho, holds rho cs.

(** *** The oracle

    Modelled from the spec: [can_be_true(constraint_set, expr)] answers
    whether [expr] can hold given the set (the solver is not part of the
    sources).  It is decided here by trying every assignment of the
    variables that occur. *)
Definition var : Type := (nat * nat)%type.

Definition var_eqb (u v : var) : bool :=
  (fst u =? fst v)%nat && (snd u =? snd v)%nat.

Fixpoint vars (e : expr) : list var :=
  match e with
  | BitVecConstant _ _ => []
  | BitVecVariable w x => [(w, x)]
  | ZeroExtend _ i => vars i
  | Subtract a b => vars a ++ vars b
  | IfThenElse c t f => bvars c ++ vars t ++ vars f
  end
with bvars (c : bexpr) : list var :=
  match c with
  | Equal a b | NotEqual a b => vars a ++ vars b
  end.

Fixpoint dedup (l : list var) : list var :=
  match l with
  | [] => []
  | v :: l' => if existsb (var_eqb v) l' then dedup l' else v :: dedup l'
  end.

Definition assignment : Type := list (var * Z).

Fixpoint lookup (a : assignment) (w x : nat) : Z :=
  match a with
  | [] => 0
  | (v, z) :: a' => if var_eqb v (w, x) then z else lookup a' w x
  end.

Definition domain (w : nat) : list Z :=
  map Z.of_nat (seq 0 (2 ^ w)).

Fixpoint assignments (vs : list var) : list assignment :=
  match vs with
  | [] => [[]]
  | v :: vs' =>
      flat_map (fun z => map (cons (v, z)) (assignments vs')) (domain (fst v))
  end.

Definition can_be_true (cs : ConstraintSet) (e : bexpr) : bool :=
  existsb (fun a => forallb (beval (lookup a)) cs && beval (lookup a) e)
          (assignments (dedup (flat_map bvars cs ++ bvars e))).

End Smt.

(** ** Python values and the operators of [core.smtlib.operators] *)

Module Value.
Import Smt.

(** [Union[int, BitVec]]: a Python integer or an expression. *)
Inductive val : Type :=
| VInt (z : Z)
| VSym (e : expr).

(** The result of a comparison: a Python [bool] or a [Bool] expression. *)
Inductive cond : Type :=
| CBool (b : bool)
| CSym (c : bexpr).

Definition issymbolic (v : val) : bool :=
  match v with
  | VSym _ => true
  | VInt _ => false
  end.

(** Modelled from the spec: an integer operand of an operator whose
    other operand is an expression becomes a constant of that
    expression's width ("operand widths match exactly"). *)
Definition cast (like : expr) (z : Z) : expr :=
  BitVecConstant (width_of like) z.

(** [a - b] *)
Definition sub (a b : val) : val :=
  match a, b with
  | VInt x, VInt y => VInt (x - y)
  | VSym e, VInt y => VSym (Subtract e (cast e y))
  | VInt x, VSym f => VSym (Subtract (cast f x) f)
  | VSym e, VSym f => VSym (Subtract e f)
  end.

(** [a != b]; with an integer on the left Python falls back on the
    expression's reflected comparison. *)
Definition ne (a b : val) : cond :=
  match a, b with
  | VInt x, VInt y => CBool (negb (x =? y))
  | VSym e, VInt y => CSym (NotEqual e (cast e y))
  | VInt x, VSym f => CSym (NotEqual f (cast f x))
  | VSym e, VSym f => CSym (NotEqual e f)
  end.

(** A constant expression, as opposed to one with a variable in it. *)
Definition isconstant (v : val) : bool :=
  match v with
  | VSym (BitVecConstant _ _) => true
  | _ => false
  end.

(** [a == b].  A constant expression compares its value with an integer
    at once and answers with a Python [bool]; every other expression
    builds an [Equal] node. *)
Definition eq (a b : val) : cond :=
  match a, b with
  | VInt x, VInt y => CBool (x =? y)
  | VSym (BitVecConstant _ v), VInt y => CBool (v =? y)
  | VSym e, VInt y => CSym (Equal e (cast e y))
  | VInt x, VSym (BitVecConstant _ v) => CBool (v =? x)
  | VInt x, VSym f => CSym (Equal f (cast f x))
  | VSym e, VSym f => CSym (Equal e f)
  end.

(** Modelled from the spec: [ZEXTEND(x, size)] widens to [size] bits, an
    integer by masking, an expression by an explicit zero-extension node
    (none when it already has that width). *)
Definition ZEXTEND (x : val) (size : nat) : val :=
  match x with
  | VInt z => VInt (Z.land z (Z.ones (Z.of_nat size)))
  | VSym e => if (width_of e <? size)%nat then VSym (ZeroExtend size e) else VSym e
  end.

Definition to_expr (size : nat) (v : val) : expr :=
  match v with
  | VInt z => BitVecConstant size z
  | VSym e => e
  end.

(** Modelled from the spec: [ITEBV(size, cond, then, else)] builds an
    if-then-else node of width [size]; a condition that is a Python
    [bool] selects a branch at once and builds nothing. *)
Definition ITEBV (size : nat) (c : cond) (true_value false_value : val) : val :=
  match c with
  | CBool b => if b then true_value else false_value
  | CSym k => VSym (IfThenElse k (to_expr size true_value) (to_expr size false_value))
  end.

(** The integer a value stands for under an assignment. *)
Definition eval_val (rho : env) (v : val) : Z :=
  match v with
  | VInt z => z
  | VSym e => eval rho e
  end.

End Value.

(** ** The execution state *)

Module Machine.
Import Smt Value.

(** Modelled from the spec: the address space maps integer addresses to
    byte values, and the CPU knows the pointer width (the CPU and its
    memory are not part of the sources).  Only 8-bit accesses are made by
    the models. *)
Record Cpu : Type := {
  memory : Z -> val;
  address_bit_size : nat
}.

Definition read_int (cpu : Cpu) (where_ : Z) : val := memory cpu where_.

Definition as_byte (v : val) : val :=
  match v with
  | VInt z => VInt (Z.land z 255)
  | VSym e => VSym e
  end.

Definition write_int (cpu : Cpu) (where_ : Z) (v : val) : Cpu :=
  {| memory := fun a => if a =? where_ then as_byte v else memory cpu a;
     address_bit_size := address_bit_size cpu |}.

Record State : Type := {
  cpu : Cpu;
  constraints : ConstraintSet
}.

Definition with_cpu (st : State) (c : Cpu) : State :=
  {| cpu := c; constraints := constraints st |}.

(** A memory cell is a byte: an integer below 256 or a width-coherent
    expression of 8 bits. *)
Definition byte_ok (v : val) : Prop :=
  match v with
  | VInt z => 0 <= z < 256
  | VSym e => width_of e = 8%nat /\ wf_expr e = true
  end.

Definition wf_cpu (c : Cpu) : Prop :=
  (8 <= address_bit_size c)%nat /\ forall a, byte_ok (memory c a).

Definition concrete_memory (c : Cpu) : Prop :=
  forall a, exists z, memory c a = VInt z /\ 0 <= z < 256.

(** What a model call does: it returns, raises [ConcretizeArgument]
    with an argument number, fails on an empty list ([IndexError]), or is
    still looping when the fuel runs out. *)
Inductive outcome (A : Type) : Type :=
| Return (a : A)
| ConcretizeArgument (argnum : nat)
| IndexError
| OutOfFuel.
Arguments Return {A} a.
Arguments ConcretizeArgument {A} argnum.
Arguments IndexError {A}.
Arguments OutOfFuel {A}.

End Machine.

(** ** The models *)

Module Models.
Import Smt Value Machine.

(** [range(n - 1, -1, -1)]: the offsets [n-1, ..., 0]. *)
Definition down_from (n : nat) : list nat := rev (seq 0 n).

Definition ptr_add (p : Z) (offset : nat) : Z := p + Z.of_nat offset.

(** In the scanners and classifiers [byt != 0] and [byt == 0] are taken
    on an expression [byt] and handed to the oracle, which is asked the
    nodes [NotEqual byt 0] and [Equal byt 0].  On a constant [byt] the
    second is a Python [bool]; the oracle's answer to it is its answer
    to the node (lemma [can_be_true_constant_eq]). *)
Fixpoint _find_zero_from (fuel : nat) (cpu : Cpu) (constrs : ConstraintSet)
    (ptr : Z) (offset : nat) : option nat :=
  match fuel with
  | O => None
  | S fuel' =>
      let byt := read_int cpu (ptr_add ptr offset) in
      let stop :=
        match byt with
        | VSym e => negb (can_be_true constrs (NotEqual e (cast e 0)))
        | VInt z => z =? 0
        end in
      if stop then Some offset
      else _find_zero_from fuel' cpu constrs ptr (S offset)
  end.

Definition _find_zero (fuel : nat) (cpu : Cpu) (constrs : ConstraintSet)
    (ptr : Z) : option nat :=
  _find_zero_from fuel cpu constrs ptr 0.

Fixpoint _find_zeros_from (fuel : nat) (cpu : Cpu) (constrs : ConstraintSet)
    (ptr : Z) (offset : nat) (can_be_zero : list nat) : option (list nat) :=
  match fuel with
  | O => None
  | S fuel' =>
      let byt := read_int cpu (ptr_add ptr offset) in
      match byt with
      | VSym e =>
          let can_be_zero :=
            if can_be_true constrs (Equal e (cast e 0))
            then can_be_zero ++ [offset] else can_be_zero in
          if negb (can_be_true constrs (NotEqual e (cast e 0)))
          then Some can_be_zero
          else _find_zeros_from fuel' cpu constrs ptr (S offset) can_be_zero
      | VInt z =>
          if z =? 0 then Some (can_be_zero ++ [offset])
          else _find_zeros_from fuel' cpu constrs ptr (S offset) can_be_zero
      end
  end.

Definition _find_zeros (fuel : nat) (cpu : Cpu) (constrs : ConstraintSet)
    (ptr : Z) : option (list nat) :=
  _find_zeros_from fuel cpu constrs ptr 0 [].

Definition is_zero_int (v : val) : bool :=
  match v with
  | VInt z => z =? 0
  | VSym _ => false
  end.

(** One pass of the body of [strcmp]'s loop. *)
Definition strcmp_step (cpu : Cpu) (s1 s2 : Z) (ret : option val)
    (offset : nat) : option val :=
  let s1char := ZEXTEND (read_int cpu (ptr_add s1 offset)) (address_bit_size cpu) in
  let s2char := ZEXTEND (read_int cpu (ptr_add s2 offset)) (address_bit_size cpu) in
  if issymbolic s1char || issymbolic s2char then
    match ret with
    | None => Some (sub s1char s2char)
    | Some r =>
        if is_zero_int r then Some (sub s1char s2char)
        else Some (ITEBV (address_bit_size cpu) (ne s1char s2char)
                         (sub s1char s2char) r)
    end
  else
    match ne s1char s2char with
    | CBool true => Some (sub s1char s2char)
    | _ => match ret with
           | None => Some (VInt 0)
           | Some r => Some r
           end
    end.

Definition strcmp (fuel : nat) (state : State) (s1 s2 : val)
    : outcome (option val) * State :=
  let cpu := cpu state in
  match s1, s2 with
  | VSym _, _ => (ConcretizeArgument 1, state)
  | VInt _, VSym _ => (ConcretizeArgument 2, state)
  | VInt s1, VInt s2 =>
      match _find_zero fuel cpu (constraints state) s1 with
      | None => (OutOfFuel, state)
      | Some s1_zero_idx =>
          match _find_zero fuel cpu (constraints state) s2 with
          | None => (OutOfFuel, state)
          | Some s2_zero_idx =>
              let min_zero_idx := Nat.min s1_zero_idx s2_zero_idx in
              let ret := fold_left (strcmp_step cpu s1 s2)
                                   (down_from (S min_zero_idx)) None in
              (Return ret, state)
          end
      end
  end.

Definition strlen_step (cpu : Cpu) (s : Z) (ret : val) (offset : nat) : val :=
  let byt := read_int cpu (ptr_add s offset) in
  if issymbolic byt
  then ITEBV (address_bit_size cpu) (eq byt (VInt 0))
             (VInt (Z.of_nat offset)) ret
  else ret.

Definition strlen (fuel : nat) (state : State) (s : val)
    : outcome val * State :=
  let cpu := cpu state in
  match s with
  | VSym _ => (ConcretizeArgument 1, state)
  | VInt s =>
      match _find_zero fuel cpu (constraints state) s with
      | None => (OutOfFuel, state)
      | Some zero_idx =>
          let ret := VInt (Z.of_nat zero_idx) in
          (Return (fold_left (strlen_step cpu s) (down_from zero_idx) ret), state)
      end
  end.

Definition is_NULL (byte : val) (constrs : ConstraintSet) : bool :=
  match byte with
  | VSym e => negb (can_be_true constrs (NotEqual e (cast e 0)))
  | VInt z => z =? 0
  end.

Definition not_NULL (byte : val) (constrs : ConstraintSet) : bool :=
  match byte with
  | VSym e => negb (can_be_true constrs (Equal e (cast e 0)))
  | VInt z => negb (z =? 0)
  end.

(** The first loop of [strcpy]: copy while the byte cannot be zero.  It
    hands back the memory, both pointers and the byte it stopped at. *)
Fixpoint strcpy_copy (fuel : nat) (cpu : Cpu) (constrs : ConstraintSet)
    (dst src : Z) (c : val) : option (Cpu * Z * Z * val) :=
  match fuel with
  | O => None
  | S fuel' =>
      if not_NULL c constrs then
        let cpu := write_int cpu dst c in
        let src := src + 1 in
        let dst := dst + 1 in
        let c := read_int cpu src in
        strcpy_copy fuel' cpu constrs dst src c
      else Some (cpu, dst, src, c)
  end.

(** The memory the first loop of [strcpy] has reached when it has made
    [fuel] passes, or fewer if it has stopped before: every pass writes
    one byte. *)
Fixpoint strcpy_copy_memory (fuel : nat) (cpu : Cpu) (constrs : ConstraintSet)
    (dst src : Z) (c : val) : Cpu :=
  match fuel with
  | O => cpu
  | S fuel' =>
      if not_NULL c constrs then
        let cpu := write_int cpu dst c in
        let src := src + 1 in
        let dst := dst + 1 in
        let c := read_int cpu src in
        strcpy_copy_memory fuel' cpu constrs dst src c
      else cpu
  end.

(** [zeros[-1]] *)
Definition last_item (zeros : list nat) : option nat :=
  match rev zeros with
  | [] => None
  | z :: _ => Some z
  end.

(** The inner loop of the last phase: one conditional for every
    remaining candidate, the nearest one innermost. *)
Definition strcpy_wrap (cpu : Cpu) (src : Z) (dst_val : val)
    (zeros : list nat) (src_val : val) : val :=
  fold_left (fun src_val zero =>
               let c := read_int cpu (ptr_add src zero) in
               ITEBV 8 (ne c (VInt 0)) src_val dst_val)
            (rev zeros) src_val.

(** One pass of the outer loop of the last phase.  The list is [None]
    once [zeros[-1]] has been asked of an empty list ([IndexError]). *)
Definition strcpy_tail_step (src dst : Z) (acc : Cpu * option (list nat))
    (offset : nat) : Cpu * option (list nat) :=
  match acc with
  | (cpu, None) => (cpu, None)
  | (cpu, Some zeros) =>
      let src_val := read_int cpu (ptr_add src offset) in
      let dst_val := read_int cpu (ptr_add dst offset) in
      match last_item zeros with
      | None => (cpu, None)
      | Some z =>
          let '(src_val, zeros) :=
            if (z =? offset)%nat
            then (ITEBV 8 (ne src_val (VInt 0)) src_val (VInt 0), removelast zeros)
            else (src_val, zeros) in
          let src_val := strcpy_wrap cpu src dst_val zeros src_val in
          (write_int cpu (ptr_add dst offset) src_val, Some zeros)
      end
  end.

Definition strcpy (fuel : nat) (state : State) (dst src : val)
    : outcome val * State :=
  match src, dst with
  | VSym _, _ => (ConcretizeArgument 1, state)
  | VInt _, VSym _ => (ConcretizeArgument 2, state)
  | VInt src, VInt dst =>
      let constrs := constraints state in
      let ret := VInt dst in
      match strcpy_copy fuel (cpu state) constrs dst src
                        (read_int (cpu state) src) with
      | None =>
          (OutOfFuel,
           with_cpu state (strcpy_copy_memory fuel (cpu state) constrs dst src
                                              (read_int (cpu state) src)))
      | Some (cpu, dst, src, c) =>
          if is_NULL c constrs then
            (Return ret, with_cpu state (write_int cpu dst (VInt 0)))
          else
            match _find_zeros fuel cpu constrs src with
            | None => (OutOfFuel, with_cpu state cpu)
            | Some zeros =>
                match last_item zeros with
                | None => (IndexError, with_cpu state cpu)
                | Some null =>
                    match fold_left (strcpy_tail_step src dst)
                                    (down_from (S null)) (cpu, Some zeros) with
                    | (cpu, None) => (IndexError, with_cpu state cpu)
                    | (cpu, Some _) => (Return ret, with_cpu state cpu)
                    end
                end
            end
      end
  end.

End Models.

(** ** Notions used to state the properties *)

Module Sem.
Import Smt Value Machine Models.

(** Two assignments that give the listed variables the same values. *)
Definition agree_on (vs : list var) (r1 r2 : env) : Prop :=
  forall w x, In (w, x) vs -> r1 w x mod modulus w = r2 w x mod modulus w.

(** The finite assignment that an oracle query tries for [rho]. *)
Definition restrict (rho : env) (vs : list var) : assignment :=
  map (fun v => (v, rho (fst v) (snd v) mod modulus (fst v))) vs.

(** [n] is the first offset from [ptr] whose byte is definitely null. *)
Definition first_null (cpu : Cpu) (cs : ConstraintSet) (ptr : Z) (n : nat) : Prop :=
  is_NULL (read_int cpu (ptr_add ptr n)) cs = true /\
  forall m, (m < n)%nat -> is_NULL (read_int cpu (ptr_add ptr m)) cs = false.

(** The byte at offset [k] is one that [_find_zeros] records: a zero, or
    an expression that can be zero. *)
Definition can_zero (cpu : Cpu) (cs : ConstraintSet) (ptr : Z) (k : nat) : bool :=
  match read_int cpu (ptr_add ptr k) with
  | VSym e => can_be_true cs (Equal e (cast e 0))
  | VInt z => z =? 0
  end.

Definition strictly_increasing (l : list nat) : Prop := StronglySorted lt l.

(** A null-terminated string of length [n] lies at [s]: offset [n]
    holds the first zero byte. *)
Definition first_zero (cpu : Cpu) (s : Z) (n : nat) : Prop :=
  read_int cpu (ptr_add s n) = VInt 0 /\
  forall m, (m < n)%nat -> read_int cpu (ptr_add s m) <> VInt 0.

(** A byte is definitely null: a concrete zero, or an expression that
    no assignment satisfying the constraints makes non-zero. *)
Definition definitely_null (cs : ConstraintSet) (byte : val) : Prop :=
  match byte with
  | VInt z => z = 0
  | VSym e => ~ exists rho, holds rho cs /\ eval rho e <> 0
  end.

(** The byte at address [a] under an assignment. *)
Definition cbyte (rho : env) (cpu : Cpu) (a : Z) : Z :=
  eval_val rho (read_int cpu a).

(** The two strings have the same byte at offset [k]. *)
Definition agree_at (rho : env) (cpu : Cpu) (s1 s2 : Z) (k : nat) : Prop :=
  cbyte rho cpu (ptr_add s1 k) = cbyte rho cpu (ptr_add s2 k).

(** The two strings are identical up to and including a terminator. *)
Definition same_string (rho : env) (cpu : Cpu) (s1 s2 : Z) : Prop :=
  exists t, (forall k, (k <= t)%nat -> agree_at rho cpu s1 s2 k) /\
            cbyte rho cpu (ptr_add s1 t) = 0.

(** A returned value as a quantity of [w] bits. *)
Definition ret_value (rho : env) (w : nat) (v : val) : Z :=
  eval_val rho v mod modulus w.

Definition acc_value (rho : env) (w : nat) (acc : option val) : Z :=
  match acc with
  | None => 0
  | Some v => ret_value rho w v
  end.

(** A byte widened to the pointer width: an integer below 256, or an
    expression of the pointer width with the value of the byte. *)
Inductive widened (w : nat) (b : val) : val -> Prop :=
| widened_int z : b = VInt z -> 0 <= z < 256 -> widened w b (VInt z)
| widened_sym e : width_of e = w ->
    (forall rho, eval rho e = eval_val rho b) ->
    (forall rho, 0 <= eval_val rho b < 256) ->
    widened w b (VSym e).

(** Reference semantics: the C library's [strcmp] on concrete bytes.
    It advances both pointers while the bytes are equal, returns 0 when
    the equal bytes are the terminator, and the difference of the two
    bytes at the first place where they differ. *)
Fixpoint ref_strcmp (fuel : nat) (m : Z -> Z) (s1 s2 : Z) : option Z :=
  match fuel with
  | O => None
  | S fuel' =>
      if m s1 =? m s2 then
        if m s1 =? 0 then Some 0 else ref_strcmp fuel' m (s1 + 1) (s2 + 1)
      else Some (m s1 - m s2)
  end.

(** The value the last phase of [strcpy] writes at [offset] when the
    candidates are the offsets that satisfy [f]. *)
Definition tail_value (src dst : Z) (f : nat -> bool) (cpu : Cpu)
    (offset : nat) : val :=
  let src_val := read_int cpu (ptr_add src offset) in
  let dst_val := read_int cpu (ptr_add dst offset) in
  strcpy_wrap cpu src dst_val (filter f (seq 0 offset))
    (if f offset then ITEBV 8 (ne src_val (VInt 0)) src_val (VInt 0)
     else src_val).

(** The memory after the last phase has handled offsets [n-1 .. 0]. *)
Definition tail_run (src dst : Z) (f : nat -> bool) (n : nat) (cpu : Cpu) : Cpu :=
  fold_left (fun cpu o => write_int cpu (ptr_add dst o) (tail_value src dst f cpu o))
            (down_from n) cpu.

End Sem.

(** ** Concrete states *)

Module Examples.
Import Smt Value Machine Models.

Definition x : expr := BitVecVariable 8 0.

(** A constraint set no assignment satisfies. *)
Definition unsat : ConstraintSet :=
  [NotEqual (BitVecConstant 8 0) (BitVecConstant 8 0)].

(** [bytes] laid out from [base], [fill] everywhere else. *)
Definition layout (base : Z) (bytes : list val) (fill : Z -> val) : Z -> val :=
  fun a =>
    if (base <=? a) && (a <? base + Z.of_nat (length bytes))
    then nth (Z.to_nat (a - base)) bytes (VInt 0)
    else fill a.

Definition zeroes : Z -> val := fun _ => VInt 0.

Definition cpu64 (mem : Z -> val) : Cpu :=
  {| memory := mem; address_bit_size := 64 |}.

(** [x] is 0 or 1. *)
Definition x_is_0_or_1 : ConstraintSet :=
  [Equal (IfThenElse (Equal x (BitVecConstant 8 0)) (BitVecConstant 8 1) x)
         (BitVecConstant 8 1)].

(** Two strings that are the same whenever [x] is 0 or 1: the bytes
    [x, x, 0] at address 100 and [x, 1, 0] at address 200. *)
Definition twins : State :=
  {| cpu := cpu64 (layout 100 [VSym x; VSym x; VInt 0]
                    (layout 200 [VSym x; VInt 1; VInt 0] zeroes));
     constraints := x_is_0_or_1 |}.

(** "abc" at address 100 and "abd" at address 200. *)
Definition abc_abd : State :=
  {| cpu := cpu64 (layout 100 [VInt 97; VInt 98; VInt 99; VInt 0]
                    (layout 200 [VInt 97; VInt 98; VInt 100; VInt 0] zeroes));
     constraints := [] |}.

(** The string "a" at address 100, to be copied one byte further. *)
Definition letter_a : State :=
  {| cpu := cpu64 (layout 100 [VInt 97] zeroes); constraints := [] |}.

(** A source string [x, 0] at address 200 whose first byte may or may
    not be zero, and the bytes "AB" at the destination, address 100. *)
Definition maybe_empty : State :=
  {| cpu := cpu64 (layout 100 [VInt 65; VInt 66]
                    (layout 200 [VSym x; VInt 0] zeroes));
     constraints := [] |}.

(** The string [5, x, 0] at address 100, to be copied two bytes
    further, onto its own terminator. *)
Definition onto_itself : State :=
  {| cpu := cpu64 (layout 100 [VInt 5; VSym x; VInt 0] zeroes);
     constraints := [] |}.

(** One symbolic byte at address 100. *)
Definition one_symbolic : Cpu := cpu64 (layout 100 [VSym x] zeroes).

(** The string "hello" at address 100. *)
Definition hello : Cpu :=
  cpu64 (layout 100 [VInt 104; VInt 101; VInt 108; VInt 108; VInt 111] zeroes).

(** A memory without any zero byte. *)
Definition all_A : Cpu := cpu64 (fun _ => VInt 65).

End Examples.


(** ** The variadic tag *)

Module Tags.
Import String.StringSyntax.
Local Open Scope string_scope.

(** What an attribute of a Python object can hold, as far as the tag
    is concerned. *)
Inductive PyObj : Type :=
| PyBool (b : bool)
| PyInt (z : Z)
| PyStr (s : String.string).

(** A function model as a Python object: the body it runs (named by a
    number here) and its attribute dictionary. *)
Record Callable : Type := {
  body : nat;
  attrs : String.string -> option PyObj
}.

Definition getattr (o : Callable) (name : String.string) (default : PyObj) : PyObj :=
  match attrs o name with
  | Some v => v
  | None => default
  end.

Definition setattr (o : Callable) (name : String.string) (v : PyObj) : Callable :=
  {| body := body o;
     attrs := fun k => if String.eqb k name then Some v else attrs o k |}.

Definition VARIADIC_FUNC_ATTR : String.string := "_variadic".

Definition isvariadic (model : Callable) : PyObj :=
  getattr model VARIADIC_FUNC_ATTR (PyBool false).

Definition variadic (func : Callable) : Callable :=
  setattr func VARIADIC_FUNC_ATTR (PyBool true).

(** A model defined with [def] and no decorator. *)
Definition plain (n : nat) : Callable :=
  {| body := n; attrs := fun _ => None |}.

End Tags.

(** ** More notions used to state properties *)

Module Sem2.
Import Smt Value Machine Models Sem.

(** A value that fits a result of [w] bits: an integer, or a
    width-coherent expression of [w] bits. *)
Definition val_ok (w : nat) (v : val) : Prop :=
  match v with
  | VInt _ => True
  | VSym e => width_of e = w /\ wf_expr e = true
  end.

(** The true length of the string at [s] under an assignment: the
    first offset whose byte is zero. *)
Definition length_under (rho : env) (cpu : Cpu) (s : Z) (len : nat) : Prop :=
  cbyte rho cpu (ptr_add s len) = 0 /\
  forall k, (k < len)%nat -> cbyte rho cpu (ptr_add s k) <> 0.

(** Some candidate before [offset] holds a zero byte under the
    assignment: the copy has already ended there. *)
Definition blocked (rho : env) (cpu : Cpu) (src : Z) (f : nat -> bool)
    (offset : nat) : bool :=
  existsb (fun z => cbyte rho cpu (ptr_add src z) =? 0) (filter f (seq 0 offset)).

(** A condition built from width-coherent operands. *)
Definition cond_ok (c : cond) : Prop :=
  match c with
  | CBool _ => True
  | CSym k => wf_bexpr k = true
  end.

(** The value of a byte-sized operand lies below 256. *)
Definition in_range (rho : env) (v : val) : Prop := 0 <= eval_val rho v < 256.

End Sem2.
(** * Properties *)

Import Smt Value Machine Models Sem Examples.

(** ** The oracle decides feasibility *)


Lemma agree_on_app vs1 vs2 r1 r2 :
  agree_on (vs1 ++ vs2) r1 r2 <-> agree_on vs1 r1 r2 /\ agree_on vs2 r1 r2.
Proof.
  unfold agree_on; split.
  - intros H; split; intros w x Hin; apply H, in_or_app; auto.
  - intros [H1 H2] w x Hin. apply in_app_or in Hin as [Hin|Hin]; auto.
Qed.

Lemma eval_agree r1 r2 :
  (forall e, agree_on (vars e) r1 r2 -> eval r1 e = eval r2 e) /\
  (forall c, agree_on (bvars c) r1 r2 -> beval r1 c = beval r2 c).
Proof.
  apply expr_bexpr_ind; simpl; intros.
  - reflexivity.
  - apply H; left; reflexivity.
  - rewrite H by assumption; reflexivity.
  - apply agree_on_app in H1 as [Ha Hb]. rewrite H, H0 by assumption; reflexivity.
  - apply agree_on_app in H2 as [Hc Ht]. apply agree_on_app in Ht as [Ht Hf].
    rewrite H, H0, H1 by assumption; reflexivity.
  - apply agree_on_app in H1 as [Ha Hb]. rewrite H, H0 by assumption; reflexivity.
  - apply agree_on_app in H1 as [Ha Hb]. rewrite H, H0 by assumption; reflexivity.
Qed.

Lemma var_eqb_spec u v : var_eqb u v = true <-> u = v.
Proof.
  destruct u as [a b], v as [c d]; unfold var_eqb; simpl.
  rewrite andb_true_iff, !Nat.eqb_eq. split.
  - intros [-> ->]; reflexivity.
  - intros H; inversion H; auto.
Qed.

Lemma dedup_In v l : In v (dedup l) <-> In v l.
Proof.
  induction l as [|u l IH]; simpl; [tauto|].
  destruct (existsb (var_eqb u) l) eqn:E.
  - rewrite IH. split; [auto|]. intros [->|H]; [|exact H].
    apply existsb_exists in E as [y [Hy Hv]].
    apply var_eqb_spec in Hv; subst; exact Hy.
  - simpl; rewrite IH; tauto.
Qed.

Lemma modulus_pos w : 0 < modulus w.
Proof. unfold modulus; apply Z.pow_pos_nonneg; lia. Qed.

Lemma domain_In w z : 0 <= z < modulus w -> In z (domain w).
Proof.
  intros Hz. unfold domain. apply in_map_iff.
  exists (Z.to_nat z); split; [lia|].
  apply in_seq. split; [lia|]. simpl.
  apply Nat2Z.inj_lt. rewrite Nat2Z.inj_pow, Z2Nat.id by lia.
  exact (proj2 Hz).
Qed.


Lemma restrict_In rho vs : In (restrict rho vs) (assignments vs).
Proof.
  induction vs as [|v vs IH]; simpl; [auto|].
  apply in_flat_map.
  exists (rho (fst v) (snd v) mod modulus (fst v)); split.
  - apply domain_In, Z.mod_pos_bound, modulus_pos.
  - apply in_map; exact IH.
Qed.

Lemma lookup_restrict rho vs w x :
  In (w, x) vs -> lookup (restrict rho vs) w x = rho w x mod modulus w.
Proof.
  induction vs as [|v vs IH]; simpl; [tauto|].
  intros Hin. destruct (var_eqb v (w, x)) eqn:E.
  - apply var_eqb_spec in E; subst; reflexivity.
  - destruct Hin as [->|Hin]; [|auto].
    assert (var_eqb (w, x) (w, x) = true) by (apply var_eqb_spec; reflexivity).
    congruence.
Qed.

Lemma restrict_agree rho vs : agree_on vs (lookup (restrict rho vs)) rho.
Proof.
  intros w x Hin. rewrite lookup_restrict by assumption.
  apply Z.mod_mod. pose proof (modulus_pos w); lia.
Qed.

Lemma agree_on_incl vs vs' r1 r2 :
  (forall v, In v vs -> In v vs') -> agree_on vs' r1 r2 -> agree_on vs r1 r2.
Proof. intros Hs H w x Hin; apply H, Hs, Hin. Qed.

Lemma can_be_true_sound cs e :
  can_be_true cs e = true -> exists rho, holds rho cs /\ beval rho e = true.
Proof.
  unfold can_be_true. intros H.
  apply existsb_exists in H as [a [_ H]].
  apply andb_true_iff in H as [Hcs He].
  exists (lookup a); split; [|exact He].
  apply Forall_forall. rewrite forallb_forall in Hcs. exact Hcs.
Qed.

Lemma can_be_true_complete cs e rho :
  holds rho cs -> beval rho e = true -> can_be_true cs e = true.
Proof.
  intros Hcs He. unfold can_be_true.
  set (vs := dedup (flat_map bvars cs ++ bvars e)).
  apply existsb_exists. exists (restrict rho vs); split; [apply restrict_In|].
  pose proof (restrict_agree rho vs) as Hag.
  apply andb_true_iff; split.
  - apply forallb_forall. intros c Hc.
    rewrite (proj2 (eval_agree _ rho) c).
    + unfold holds in Hcs. rewrite Forall_forall in Hcs. auto.
    + eapply agree_on_incl; [|exact Hag].
      intros v Hv. apply dedup_In, in_or_app; left.
      apply in_flat_map; eauto.
  - rewrite (proj2 (eval_agree _ rho) e); [exact He|].
    eapply agree_on_incl; [|exact Hag].
    intros v Hv. apply dedup_In, in_or_app; right; exact Hv.
Qed.

(** On a constant byte within its width the oracle answers the node
    [Equal byt 0] as it answers the Python [bool] the comparison gives
    there: a false one cannot be true, a true one can be when the
    constraints can be satisfied. *)
Lemma can_be_true_constant_eq cs w v :
  0 <= v < modulus w ->
  can_be_true cs (Equal (BitVecConstant w v) (cast (BitVecConstant w v) 0)) =
  (v =? 0) && can_be_true cs (Equal (BitVecConstant w 0) (BitVecConstant w 0)).
Proof.
  intros Hv. destruct (Z.eqb_spec v 0) as [->|Hne]; [reflexivity|].
  cbn [andb].
  destruct (can_be_true cs _) eqn:E; [|reflexivity].
  apply can_be_true_sound in E as (rho & _ & Hb).
  cbn [beval eval cast width_of] in Hb. apply Z.eqb_eq in Hb.
  rewrite Z.mod_small in Hb by exact Hv.
  rewrite Z.mod_0_l in Hb by (pose proof (modulus_pos w); lia).
  contradiction.
Qed.

(** ** The null classifier *)

Lemma eval_cast_zero rho e : eval rho (cast e 0) = 0.
Proof. simpl. apply Z.mod_0_l. pose proof (modulus_pos (width_of e)); lia. Qed.

Lemma is_NULL_eval rho cs b :
  holds rho cs -> is_NULL b cs = true -> eval_val rho b = 0.
Proof.
  intros Hcs H. destruct b as [z|e]; simpl in *.
  - apply Z.eqb_eq; exact H.
  - apply negb_true_iff in H.
    destruct (Z.eq_dec (eval rho e) 0) as [E|E]; [exact E|].
    rewrite (can_be_true_complete cs _ rho Hcs) in H; [discriminate|].
    cbn [beval]. rewrite eval_cast_zero.
    apply negb_true_iff, Z.eqb_neq; exact E.
Qed.

Lemma not_NULL_eval rho cs b :
  holds rho cs -> not_NULL b cs = true -> eval_val rho b <> 0.
Proof.
  intros Hcs H. destruct b as [z|e]; simpl in *.
  - apply negb_true_iff, Z.eqb_neq in H; exact H.
  - apply negb_true_iff in H. intros E.
    rewrite (can_be_true_complete cs _ rho Hcs) in H; [discriminate|].
    cbn [beval]. rewrite eval_cast_zero. apply Z.eqb_eq; exact E.
Qed.

Lemma is_NULL_can_zero cpu cs ptr k :
  satisfiable cs ->
  is_NULL (read_int cpu (ptr_add ptr k)) cs = true ->
  can_zero cpu cs ptr k = true.
Proof.
  intros [rho Hcs] H. unfold can_zero.
  pose proof (is_NULL_eval rho cs _ Hcs H) as E.
  destruct (read_int cpu (ptr_add ptr k)) as [z|e]; simpl in *.
  - exact H.
  - apply (can_be_true_complete cs _ rho Hcs).
    cbn [beval]. rewrite eval_cast_zero. apply Z.eqb_eq; exact E.
Qed.

Lemma eval_cast_zero_raw w : 0 mod modulus w = 0.
Proof. apply Z.mod_0_l. pose proof (modulus_pos w); lia. Qed.

(** ** The scanners *)

Section Scanner.

Variables (cpu : Cpu) (cs : ConstraintSet) (ptr : Z).

Lemma find_zero_from_step fuel offset :
  _find_zero_from (S fuel) cpu cs ptr offset =
  if is_NULL (read_int cpu (ptr_add ptr offset)) cs then Some offset
  else _find_zero_from fuel cpu cs ptr (S offset).
Proof. reflexivity. Qed.

Lemma find_zero_from_finds k :
  forall fuel offset,
    is_NULL (read_int cpu (ptr_add ptr (offset + k))) cs = true ->
    (forall m, (offset <= m < offset + k)%nat ->
               is_NULL (read_int cpu (ptr_add ptr m)) cs = false) ->
    (k < fuel)%nat ->
    _find_zero_from fuel cpu cs ptr offset = Some (offset + k)%nat.
Proof.
  induction k as [|k IH]; intros fuel offset Hz Hnz Hf;
    (destruct fuel as [|fuel]; [lia|]); rewrite find_zero_from_step.
  - rewrite Nat.add_0_r in *. rewrite Hz; reflexivity.
  - rewrite (Hnz offset) by lia.
    replace (offset + S k)%nat with (S offset + k)%nat in * by lia.
    apply IH; [exact Hz| |lia]. intros m Hm; apply Hnz; lia.
Qed.

Lemma find_zero_from_inv :
  forall fuel offset n,
    _find_zero_from fuel cpu cs ptr offset = Some n ->
    (offset <= n)%nat /\ (n - offset < fuel)%nat /\
    is_NULL (read_int cpu (ptr_add ptr n)) cs = true /\
    forall m, (offset <= m < n)%nat ->
              is_NULL (read_int cpu (ptr_add ptr m)) cs = false.
Proof.
  induction fuel as [|fuel IH]; intros offset n H; [discriminate|].
  rewrite find_zero_from_step in H.
  destruct (is_NULL (read_int cpu (ptr_add ptr offset)) cs) eqn:E.
  - injection H as <-.
    split; [lia|]. split; [lia|]. split; [exact E|]. intros m Hm; lia.
  - apply IH in H as (Hle & Hf & Hz & Hnz).
    split; [lia|]. split; [lia|]. split; [exact Hz|].
    intros m Hm. destruct (Nat.eq_dec m offset) as [->|Hne]; [exact E|].
    apply Hnz; lia.
Qed.

Lemma find_zero_from_never :
  (forall n, is_NULL (read_int cpu (ptr_add ptr n)) cs = false) ->
  forall fuel offset, _find_zero_from fuel cpu cs ptr offset = None.
Proof.
  intros H. induction fuel as [|fuel IH]; intros offset; [reflexivity|].
  rewrite find_zero_from_step, H. apply IH.
Qed.

Lemma find_zero_iff fuel n :
  _find_zero fuel cpu cs ptr = Some n <->
  first_null cpu cs ptr n /\ (n < fuel)%nat.
Proof.
  unfold _find_zero, first_null; split.
  - intros H. apply find_zero_from_inv in H as (_ & Hf & Hz & Hnz).
    split; [split; [exact Hz|]|lia]. intros m Hm; apply Hnz; lia.
  - intros [[Hz Hnz] Hf].
    apply (find_zero_from_finds n fuel 0%nat); auto.
    intros m Hm; apply Hnz; lia.
Qed.

Lemma first_null_unique n m :
  first_null cpu cs ptr n -> first_null cpu cs ptr m -> n = m.
Proof.
  intros [Hn Hn'] [Hm Hm'].
  destruct (Nat.lt_trichotomy n m) as [L|[E|L]]; [|exact E|].
  - rewrite (Hm' n L) in Hn; discriminate.
  - rewrite (Hn' m L) in Hm; discriminate.
Qed.

Lemma find_zeros_from_spec :
  forall fuel offset acc,
    _find_zeros_from fuel cpu cs ptr offset acc =
    match _find_zero_from fuel cpu cs ptr offset with
    | None => None
    | Some n =>
        Some (acc ++ filter (can_zero cpu cs ptr) (seq offset (S n - offset)))
    end.
Proof.
  induction fuel as [|fuel IH]; intros offset acc; [reflexivity|].
  cbn [_find_zeros_from _find_zero_from].
  destruct (read_int cpu (ptr_add ptr offset)) as [z|e] eqn:Eb.
  - destruct (z =? 0) eqn:Ez.
    + replace (S offset - offset)%nat with 1%nat by lia. simpl.
      unfold can_zero. rewrite Eb, Ez. reflexivity.
    + rewrite IH.
      destruct (_find_zero_from fuel cpu cs ptr (S offset)) as [n|] eqn:En;
        [|reflexivity].
      apply find_zero_from_inv in En as (Hle & _).
      replace (S n - offset)%nat with (S (S n - S offset)) by lia.
      cbn [seq filter].
      replace (can_zero cpu cs ptr offset) with false
        by (unfold can_zero; rewrite Eb, Ez; reflexivity).
      reflexivity.
  - destruct (negb (can_be_true cs (NotEqual e (cast e 0)))) eqn:Es.
    + replace (S offset - offset)%nat with 1%nat by lia. simpl.
      unfold can_zero. rewrite Eb.
      destruct (can_be_true cs (Equal e (cast e 0)));
        [reflexivity | rewrite app_nil_r; reflexivity].
    + rewrite IH.
      destruct (_find_zero_from fuel cpu cs ptr (S offset)) as [n|] eqn:En;
        [|reflexivity].
      apply find_zero_from_inv in En as (Hle & _).
      replace (S n - offset)%nat with (S (S n - S offset)) by lia.
      cbn [seq filter].
      replace (can_zero cpu cs ptr offset)
        with (can_be_true cs (Equal e (cast e 0)))
        by (unfold can_zero; rewrite Eb; reflexivity).
      destruct (can_be_true cs (Equal e (cast e 0)));
        [rewrite <- app_assoc|]; reflexivity.
Qed.

Lemma find_zeros_spec fuel :
  _find_zeros fuel cpu cs ptr =
  match _find_zero fuel cpu cs ptr with
  | None => None
  | Some n => Some (filter (can_zero cpu cs ptr) (seq 0 (S n)))
  end.
Proof.
  unfold _find_zeros, _find_zero. rewrite find_zeros_from_spec.
  destruct (_find_zero_from fuel cpu cs ptr 0); [|reflexivity].
  rewrite Nat.sub_0_r; reflexivity.
Qed.

End Scanner.

Lemma last_item_snoc l n : last_item (l ++ [n]) = Some n.
Proof. unfold last_item. rewrite rev_app_distr; reflexivity. Qed.

Lemma filter_seq_S (f : nat -> bool) n :
  filter f (seq 0 (S n)) = filter f (seq 0 n) ++ (if f n then [n] else []).
Proof. rewrite seq_S, filter_app; reflexivity. Qed.

Lemma filter_seq_sorted (f : nat -> bool) :
  forall k a, strictly_increasing (filter f (seq a k)).
Proof.
  unfold strictly_increasing.
  induction k as [|k IH]; intros a; simpl; [constructor|].
  destruct (f a); [|apply IH].
  constructor; [apply IH|].
  apply Forall_forall. intros y Hy.
  apply filter_In in Hy as [Hy _]. apply in_seq in Hy. lia.
Qed.

Lemma is_NULL_iff cs b : is_NULL b cs = true <-> definitely_null cs b.
Proof.
  destruct b as [z|e]; simpl.
  - apply Z.eqb_eq.
  - rewrite negb_true_iff. split.
    + intros H [rho [Hcs Hne]].
      rewrite (can_be_true_complete cs _ rho Hcs) in H; [discriminate|].
      cbn [beval]. rewrite eval_cast_zero.
      apply negb_true_iff, Z.eqb_neq; exact Hne.
    + intros H. destruct (can_be_true cs (NotEqual e (cast e 0))) eqn:E;
        [|reflexivity].
      exfalso; apply H. apply can_be_true_sound in E as [rho [Hcs Hb]].
      exists rho; split; [exact Hcs|].
      cbn [beval] in Hb. rewrite eval_cast_zero in Hb.
      apply negb_true_iff, Z.eqb_neq in Hb; exact Hb.
Qed.

Lemma is_NULL_false_iff cs b : is_NULL b cs = false <-> ~ definitely_null cs b.
Proof.
  rewrite <- is_NULL_iff. destruct (is_NULL b cs); split; intros; congruence.
Qed.

Lemma satisfiable_nil : satisfiable [].
Proof. exists (fun _ _ => 0). constructor. Defined.

(** C4, as amended: under a satisfiable constraint set no byte is
    classified both definitely null and definitely non-null. *)
Theorem classifier_exclusive byte cs :
  satisfiable cs -> ~ (is_NULL byte cs = true /\ not_NULL byte cs = true).
Proof.
  intros [rho Hcs] [Hz Hnz].
  exact (not_NULL_eval rho cs byte Hcs Hnz (is_NULL_eval rho cs byte Hcs Hz)).
Qed.

Lemma classifier_exclusive_witness :
  satisfiable [] /\
  ~ (is_NULL (VSym x) [] = true /\ not_NULL (VSym x) [] = true).
Proof.
  split; [exact satisfiable_nil|].
  apply (classifier_exclusive (VSym x) []). exact satisfiable_nil.
Defined.

(** C4 as stated fails: under an unsatisfiable constraint set a symbolic
    byte is classified both ways at once. *)
Lemma classifier_both_true_unsat :
  is_NULL (VSym x) unsat = true /\ not_NULL (VSym x) unsat = true.
Proof. split; vm_compute; reflexivity. Qed.

(** C6: when offset [n] is the first one holding a definitely-null
    byte, [_find_zero] returns [n] as soon as it may make [n+1] reads;
    when no offset holds such a byte the scan never returns, whatever the
    number of reads allowed. *)
Theorem find_zero_liveness cpu cs ptr :
  (forall n,
      definitely_null cs (read_int cpu (ptr_add ptr n)) ->
      (forall m, (m < n)%nat ->
                 ~ definitely_null cs (read_int cpu (ptr_add ptr m))) ->
      forall fuel, (n < fuel)%nat -> _find_zero fuel cpu cs ptr = Some n) /\
  ((forall n, ~ definitely_null cs (read_int cpu (ptr_add ptr n))) ->
   forall fuel, _find_zero fuel cpu cs ptr = None /\
                _find_zeros fuel cpu cs ptr = None).
Proof.
  split.
  - intros n Hz Hnz fuel Hf. apply find_zero_iff. split; [split|exact Hf].
    + apply is_NULL_iff; exact Hz.
    + intros m Hm. apply is_NULL_false_iff, Hnz, Hm.
  - intros H fuel.
    assert (E : _find_zero fuel cpu cs ptr = None).
    { apply find_zero_from_never. intros n; apply is_NULL_false_iff, H. }
    split; [exact E|]. rewrite find_zeros_spec, E; reflexivity.
Qed.

Lemma find_zero_liveness_witness :
  _find_zero 6 hello [] 100 = Some 5%nat /\
  _find_zero 1000 all_A [] 0 = None.
Proof.
  split.
  - apply (proj1 (find_zero_liveness hello [] 100) 5%nat).
    + reflexivity.
    + intros m Hm.
      do 5 (destruct m as [|m]; [vm_compute; discriminate|]). lia.
    + lia.
  - apply (proj2 (find_zero_liveness all_A [] 0)).
    intros n. simpl. discriminate.
Defined.

(** C5, as amended: under a satisfiable constraint set, whenever
    [_find_zero] returns [n], [_find_zeros] returns with the same fuel a
    strictly increasing list whose last element is [n]; and
    [_find_zeros] returns only when [_find_zero] does. *)
Theorem find_zeros_monotone fuel cpu cs ptr :
  satisfiable cs ->
  (forall n, _find_zero fuel cpu cs ptr = Some n ->
     exists zs, _find_zeros fuel cpu cs ptr = Some zs /\
                strictly_increasing zs /\ last_item zs = Some n) /\
  (forall zs, _find_zeros fuel cpu cs ptr = Some zs ->
     exists n, _find_zero fuel cpu cs ptr = Some n /\
               strictly_increasing zs /\ last_item zs = Some n).
Proof.
  intros Hsat.
  assert (K : forall n, _find_zero fuel cpu cs ptr = Some n ->
            strictly_increasing (filter (can_zero cpu cs ptr) (seq 0 (S n))) /\
            last_item (filter (can_zero cpu cs ptr) (seq 0 (S n))) = Some n).
  { intros n Hn. split; [apply filter_seq_sorted|].
    apply find_zero_iff in Hn as [[Hz _] _].
    rewrite filter_seq_S, (is_NULL_can_zero cpu cs ptr n Hsat Hz).
    apply last_item_snoc. }
  split.
  - intros n Hn. rewrite find_zeros_spec, Hn. eexists; split; [reflexivity|].
    apply K, Hn.
  - intros zs Hzs. rewrite find_zeros_spec in Hzs.
    destruct (_find_zero fuel cpu cs ptr) as [n|] eqn:Hn; [|discriminate].
    injection Hzs as <-. exists n; split; [reflexivity|]. apply K; reflexivity.
Qed.

Lemma find_zeros_monotone_witness :
  satisfiable [] /\
  exists zs, _find_zeros 5 one_symbolic [] 100 = Some zs /\
             strictly_increasing zs /\ last_item zs = Some 1%nat.
Proof.
  split; [exact satisfiable_nil|].
  apply (proj1 (find_zeros_monotone 5 one_symbolic [] 100 satisfiable_nil) 1%nat).
  vm_compute; reflexivity.
Defined.

(** C5 as stated fails: under an unsatisfiable constraint set the scan
    of a symbolic byte stops at offset 0 and records nothing. *)
Lemma find_zeros_empty_unsat :
  _find_zero 5 one_symbolic unsat 100 = Some 0%nat /\
  _find_zeros 5 one_symbolic unsat 100 = Some [].
Proof. split; vm_compute; reflexivity. Qed.

(** ** The last phase of [strcpy] *)

Lemma down_from_S n : down_from (S n) = n :: down_from n.
Proof. unfold down_from. rewrite seq_S, rev_app_distr. reflexivity. Qed.

Lemma last_item_In l z : last_item l = Some z -> In z l.
Proof.
  unfold last_item. destruct (rev l) as [|y r] eqn:E; [discriminate|].
  intros H; injection H as ->. apply in_rev. rewrite E; left; reflexivity.
Qed.

Lemma last_item_None l : last_item l = None -> l = [].
Proof.
  unfold last_item. destruct (rev l) as [|y r] eqn:E; [|discriminate].
  intros _. rewrite <- (rev_involutive l), E. reflexivity.
Qed.

Lemma last_item_filter_seq (f : nat -> bool) m k :
  last_item (filter f (seq 0 m)) = Some k ->
  filter f (seq 0 m) = filter f (seq 0 (S k)) /\ f k = true /\ (k < m)%nat.
Proof.
  induction m as [|m IH]; [discriminate|].
  rewrite filter_seq_S. destruct (f m) eqn:E.
  - rewrite last_item_snoc. intros H; injection H as <-.
    rewrite filter_seq_S, E. auto.
  - rewrite app_nil_r. intros H. apply IH in H as (H1 & H2 & H3). auto.
Qed.

Lemma tail_step_eq src dst (f : nat -> bool) cpu o :
  f 0%nat = true ->
  strcpy_tail_step src dst (cpu, Some (filter f (seq 0 (S o)))) o =
  (write_int cpu (ptr_add dst o) (tail_value src dst f cpu o),
   Some (filter f (seq 0 o))).
Proof.
  intros H0. unfold strcpy_tail_step, tail_value.
  rewrite filter_seq_S. destruct (f o) eqn:E.
  - rewrite last_item_snoc, Nat.eqb_refl, removelast_last. reflexivity.
  - rewrite app_nil_r.
    destruct (last_item (filter f (seq 0 o))) as [z|] eqn:L.
    + apply last_item_In, filter_In in L as [L _]. apply in_seq in L.
      replace (z =? o)%nat with false by (symmetry; apply Nat.eqb_neq; lia).
      reflexivity.
    + apply last_item_None in L. destruct o as [|o]; [congruence|].
      simpl in L. rewrite H0 in L. discriminate.
Qed.

Lemma tail_loop_eq src dst (f : nat -> bool) :
  f 0%nat = true ->
  forall n cpu,
    fold_left (strcpy_tail_step src dst) (down_from n)
              (cpu, Some (filter f (seq 0 n))) =
    (tail_run src dst f n cpu, Some []).
Proof.
  intros H0. induction n as [|n IH]; intros cpu; [reflexivity|].
  unfold tail_run. rewrite down_from_S. cbn [fold_left].
  rewrite tail_step_eq by exact H0. apply IH.
Qed.

Lemma ptr_add_0 p : ptr_add p 0 = p.
Proof. unfold ptr_add. simpl. apply Z.add_0_r. Qed.

Lemma ambiguous_can_zero cpu cs src :
  not_NULL (read_int cpu src) cs = false ->
  is_NULL (read_int cpu src) cs = false ->
  can_zero cpu cs src 0 = true.
Proof.
  unfold can_zero. rewrite ptr_add_0.
  destruct (read_int cpu src) as [z|e]; simpl; intros Hn Hz.
  - rewrite Hz in Hn; discriminate.
  - apply negb_false_iff in Hn; exact Hn.
Qed.

Lemma tail_phase_runs fuel cpu cs src zeros :
  not_NULL (read_int cpu src) cs = false ->
  is_NULL (read_int cpu src) cs = false ->
  _find_zeros fuel cpu cs src = Some zeros ->
  (exists rest, zeros = 0%nat :: rest) /\
  exists null,
    last_item zeros = Some null /\
    zeros = filter (can_zero cpu cs src) (seq 0 (S null)) /\
    forall dst,
      fold_left (strcpy_tail_step src dst) (down_from (S null))
                (cpu, Some zeros) =
      (tail_run src dst (can_zero cpu cs src) (S null) cpu, Some []).
Proof.
  intros Hn Hz H. pose proof (ambiguous_can_zero cpu cs src Hn Hz) as H0.
  rewrite find_zeros_spec in H.
  destruct (_find_zero fuel cpu cs src) as [n|]; [|discriminate].
  assert (zeros = filter (can_zero cpu cs src) (seq 0 (S n))) as ->
    by congruence.
  clear H.
  assert (Hhd : exists rest,
             filter (can_zero cpu cs src) (seq 0 (S n)) = 0%nat :: rest).
  { cbn [seq filter]. rewrite H0. eauto. }
  split; [exact Hhd|]. destruct Hhd as [rest Hrest].
  destruct (last_item (filter (can_zero cpu cs src) (seq 0 (S n))))
    as [null|] eqn:L.
  - exists null. split; [reflexivity|].
    apply last_item_filter_seq in L as (L & _ & _).
    split; [exact L|]. intros dst. rewrite L. apply tail_loop_eq, H0.
  - apply last_item_None in L. congruence.
Qed.

(** C10: once [strcpy] has stopped copying at a byte that is neither
    definitely non-null nor definitely null, the list [_find_zeros]
    returns from there starts with offset 0, so it has a last element,
    and the loop over the offsets finds a last element at each pass: it
    ends with the list emptied and no [IndexError]. *)
Theorem strcpy_zeros_nonempty fuel cpu cs src zeros :
  not_NULL (read_int cpu src) cs = false ->
  is_NULL (read_int cpu src) cs = false ->
  _find_zeros fuel cpu cs src = Some zeros ->
  (exists rest, zeros = 0%nat :: rest) /\
  exists null,
    last_item zeros = Some null /\
    forall dst, exists cpu',
      fold_left (strcpy_tail_step src dst) (down_from (S null))
                (cpu, Some zeros) = (cpu', Some []).
Proof.
  intros Hn Hz H.
  destruct (tail_phase_runs fuel cpu cs src zeros Hn Hz H)
    as [Hhd [null [L [_ Hrun]]]].
  split; [exact Hhd|]. exists null; split; [exact L|].
  intros dst. eexists. apply Hrun.
Qed.

Lemma strcpy_zeros_nonempty_witness :
  (exists rest, [0; 1]%nat = 0%nat :: rest) /\
  exists null,
    last_item [0; 1]%nat = Some null /\
    forall dst, exists cpu',
      fold_left (strcpy_tail_step 100 dst) (down_from (S null))
                (one_symbolic, Some [0; 1]%nat) = (cpu', Some []).
Proof.
  apply (strcpy_zeros_nonempty 5 one_symbolic [] 100 [0; 1]%nat);
    vm_compute; reflexivity.
Defined.

Lemma strcpy_copy_inv cs :
  forall fuel cpu dst src cpu' dst' src' c',
    strcpy_copy fuel cpu cs dst src (read_int cpu src) = Some (cpu', dst', src', c') ->
    c' = read_int cpu' src' /\ not_NULL c' cs = false /\
    address_bit_size cpu' = address_bit_size cpu.
Proof.
  induction fuel as [|fuel IH]; intros cpu dst src cpu' dst' src' c' H;
    [discriminate|].
  cbn [strcpy_copy] in H.
  destruct (not_NULL (read_int cpu src) cs) eqn:E.
  - apply IH in H as (H1 & H2 & H3). auto.
  - injection H as <- <- <- <-. auto.
Qed.

Lemma strcpy_copy_memory_address_bit_size cs :
  forall fuel cpu dst src c,
    address_bit_size (strcpy_copy_memory fuel cpu cs dst src c)
    = address_bit_size cpu.
Proof.
  induction fuel as [|fuel IH]; intros cpu dst src c; [reflexivity|].
  cbn [strcpy_copy_memory]. destruct (not_NULL c cs); [|reflexivity].
  rewrite IH. reflexivity.
Qed.

(** The memory of the first loop is the memory the loop hands back when
    it stops within the fuel. *)
Lemma strcpy_copy_memory_done cs :
  forall fuel cpu dst src c cpu' dst' src' c',
    strcpy_copy fuel cpu cs dst src c = Some (cpu', dst', src', c') ->
    strcpy_copy_memory fuel cpu cs dst src c = cpu'.
Proof.
  induction fuel as [|fuel IH]; intros cpu dst src c cpu' dst' src' c' H;
    [discriminate|].
  cbn [strcpy_copy] in H. cbn [strcpy_copy_memory].
  destruct (not_NULL c cs).
  - exact (IH _ _ _ _ _ _ _ _ H).
  - congruence.
Qed.

Lemma tail_run_address_bit_size src dst f :
  forall n cpu, address_bit_size (tail_run src dst f n cpu) = address_bit_size cpu.
Proof.
  induction n as [|n IH]; intros cpu; [reflexivity|].
  unfold tail_run. rewrite down_from_S. cbn [fold_left].
  fold (tail_run src dst f n
          (write_int cpu (ptr_add dst n) (tail_value src dst f cpu n))).
  rewrite IH. reflexivity.
Qed.

(** What [strcpy] does once both pointers are integers, phase by phase. *)
Lemma strcpy_cases fuel st dst src :
  strcpy fuel st (VInt dst) (VInt src)
  = (OutOfFuel,
     with_cpu st (strcpy_copy_memory fuel (cpu st) (constraints st) dst src
                                     (read_int (cpu st) src))) \/
  (exists cpu1 dst1 src1,
      strcpy_copy fuel (cpu st) (constraints st) dst src
                  (read_int (cpu st) src)
      = Some (cpu1, dst1, src1, read_int cpu1 src1) /\
      not_NULL (read_int cpu1 src1) (constraints st) = false /\
      ((is_NULL (read_int cpu1 src1) (constraints st) = true /\
        strcpy fuel st (VInt dst) (VInt src) =
        (Return (VInt dst), with_cpu st (write_int cpu1 dst1 (VInt 0)))) \/
       (is_NULL (read_int cpu1 src1) (constraints st) = false /\
        _find_zeros fuel cpu1 (constraints st) src1 = None /\
        strcpy fuel st (VInt dst) (VInt src) = (OutOfFuel, with_cpu st cpu1)) \/
       (is_NULL (read_int cpu1 src1) (constraints st) = false /\
        exists null,
          _find_zeros fuel cpu1 (constraints st) src1 =
          Some (filter (can_zero cpu1 (constraints st) src1) (seq 0 (S null))) /\
          last_item (filter (can_zero cpu1 (constraints st) src1)
                            (seq 0 (S null))) = Some null /\
          strcpy fuel st (VInt dst) (VInt src) =
          (Return (VInt dst),
           with_cpu st (tail_run src1 dst1 (can_zero cpu1 (constraints st) src1)
                                 (S null) cpu1))))).
Proof.
  unfold strcpy.
  destruct (strcpy_copy fuel (cpu st) (constraints st) dst src
                        (read_int (cpu st) src))
    as [[[[cpu1 dst1] src1] c1]|] eqn:Ec; [|left; reflexivity].
  right. destruct (strcpy_copy_inv _ _ _ _ _ _ _ _ _ Ec) as (-> & Hn & _).
  exists cpu1, dst1, src1. split; [reflexivity|]. split; [exact Hn|].
  destruct (is_NULL (read_int cpu1 src1) (constraints st)) eqn:Ez;
    [left; auto|right].
  destruct (_find_zeros fuel cpu1 (constraints st) src1) as [zeros|] eqn:Ef;
    [right|left; auto].
  split; [reflexivity|].
  destruct (tail_phase_runs _ _ _ _ _ Hn Ez Ef) as [_ [null [L [Hzs Hrun]]]].
  exists null. rewrite L, Hrun. subst zeros. auto.
Qed.

(** [strcpy] never fails on [zeros[-1]] or [zeros.pop()], whatever
    the state, the pointers and the fuel. *)
Lemma strcpy_no_IndexError fuel st dst src :
  fst (strcpy fuel st dst src) <> IndexError.
Proof.
  destruct src as [src|e]; [|discriminate].
  destruct dst as [dst|e]; [|discriminate].
  destruct (strcpy_cases fuel st dst src)
    as [E|(cpu1 & dst1 & src1 & _ & _ &
           [[_ E]|[(_ & _ & E)|(_ & null & _ & _ & E)]])];
    rewrite E; discriminate.
Qed.

(** ** Frame properties *)

(** C9: the three models leave the constraint set as it was; [strlen]
    and [strcmp] leave the whole state as it was; [strcpy] changes
    nothing but the contents of memory. *)
Theorem models_frame fuel st a b :
  snd (strlen fuel st a) = st /\
  snd (strcmp fuel st a b) = st /\
  constraints (snd (strcpy fuel st a b)) = constraints st /\
  address_bit_size (cpu (snd (strcpy fuel st a b))) = address_bit_size (cpu st).
Proof.
  split; [|split].
  - unfold strlen. destruct a; [|reflexivity].
    destruct (_find_zero fuel (cpu st) (constraints st) z); reflexivity.
  - unfold strcmp. destruct a as [s1|]; [|reflexivity].
    destruct b as [s2|]; [|reflexivity].
    destruct (_find_zero fuel (cpu st) (constraints st) s1); [|reflexivity].
    destruct (_find_zero fuel (cpu st) (constraints st) s2); reflexivity.
  - destruct b as [src|e]; [|split; reflexivity].
    destruct a as [dst|e]; [|split; reflexivity].
    destruct (strcpy_cases fuel st dst src)
      as [E|(cpu1 & dst1 & src1 & Ec & _ &
             [[_ E]|[(_ & _ & E)|(_ & null & _ & _ & E)]])];
      rewrite E; try (split; reflexivity).
    + split; [reflexivity|]. cbn [snd with_cpu cpu].
      apply strcpy_copy_memory_address_bit_size.
    + apply strcpy_copy_inv in Ec as (_ & _ & Ha); simpl; auto.
    + apply strcpy_copy_inv in Ec as (_ & _ & Ha); simpl; auto.
    + apply strcpy_copy_inv in Ec as (_ & _ & Ha); simpl.
      rewrite tail_run_address_bit_size; auto.
Qed.

(** C3 fails for [strcpy]: with a symbolic source pointer, the third
    parameter (position 2, the model's state being position 0), the
    signal carries 1, the position of the concrete destination pointer;
    [strcmp] numbers its own third parameter 2.  No memory is written
    in either case. *)
Theorem strcpy_concretize_index fuel st :
  strcpy fuel st (VInt 4096) (VSym x) = (ConcretizeArgument 1, st) /\
  strcmp fuel st (VInt 4096) (VSym x) = (ConcretizeArgument 2, st).
Proof. split; reflexivity. Qed.

(** ** Values of expressions *)

Lemma eval_range rho :
  forall e, wf_expr e = true -> 0 <= eval rho e < modulus (width_of e).
Proof.
  apply (expr_ind' (fun e => wf_expr e = true ->
                             0 <= eval rho e < modulus (width_of e))
                   (fun _ => True)); simpl; auto;
    try (intros; apply Z.mod_pos_bound, modulus_pos).
  intros c _ t IHt f IHf Hwf.
  apply andb_true_iff in Hwf as [Hwf Hw].
  apply andb_true_iff in Hwf as [Hwf Hf].
  apply andb_true_iff in Hwf as [_ Ht].
  apply Nat.eqb_eq in Hw. destruct (beval rho c).
  - apply IHt; assumption.
  - rewrite Hw. apply IHf; assumption.
Qed.

Lemma modulus_mono a b : (a <= b)%nat -> modulus a <= modulus b.
Proof. intros H. unfold modulus. apply Z.pow_le_mono_r; lia. Qed.

Lemma modulus_8 : modulus 8 = 256.
Proof. reflexivity. Qed.

Lemma byte_range rho b : byte_ok b -> 0 <= eval_val rho b < 256.
Proof.
  destruct b as [z|e]; simpl; [auto|]. intros [Hw Hwf].
  pose proof (eval_range rho e Hwf) as H. rewrite Hw, modulus_8 in H. exact H.
Qed.

Lemma small_mod z w : (8 <= w)%nat -> 0 <= z < 256 -> z mod modulus w = z.
Proof.
  intros Hw Hz. apply Z.mod_small.
  pose proof (modulus_mono 8 w Hw) as H. rewrite modulus_8 in H. lia.
Qed.

Lemma byte_diff_zero a b w :
  (8 <= w)%nat -> 0 <= a < 256 -> 0 <= b < 256 ->
  ((a - b) mod modulus w = 0 <-> a = b).
Proof.
  intros Hw Ha Hb.
  pose proof (modulus_mono 8 w Hw) as H. rewrite modulus_8 in H.
  split.
  - intros E. apply Z.mod_divide in E; [|lia].
    destruct E as [q E].
    assert (Hq : q = 0 \/ q >= 1 \/ q <= -1) by lia.
    destruct Hq as [->|[Hq|Hq]]; [lia|exfalso; nia|exfalso; nia].
  - intros ->. rewrite Z.sub_diag. apply Z.mod_0_l. lia.
Qed.

Lemma ZEXTEND_int z w :
  (8 <= w)%nat -> 0 <= z < 256 -> ZEXTEND (VInt z) w = VInt z.
Proof.
  intros Hw Hz. simpl. rewrite Z.land_ones by lia.
  fold (modulus w). rewrite small_mod by assumption. reflexivity.
Qed.

Lemma ZEXTEND_sym e w :
  (8 <= w)%nat -> width_of e = 8%nat ->
  exists e', ZEXTEND (VSym e) w = VSym e' /\ width_of e' = w /\
             forall rho, wf_expr e = true -> eval rho e' = eval rho e.
Proof.
  intros Hw He. simpl. rewrite He. destruct (8 <? w)%nat eqn:E.
  - eexists; split; [reflexivity|]. split; [reflexivity|].
    intros rho Hwf. simpl. apply small_mod; [exact Hw|].
    pose proof (eval_range rho e Hwf) as H. rewrite He, modulus_8 in H. exact H.
  - apply Nat.ltb_ge in E. exists e. split; [reflexivity|].
    split; [lia|]. reflexivity.
Qed.

Lemma ZEXTEND_widened b w :
  (8 <= w)%nat -> byte_ok b -> widened w b (ZEXTEND b w).
Proof.
  intros Hw Hb. destruct b as [z|e].
  - rewrite ZEXTEND_int by assumption. constructor; auto.
  - destruct Hb as [He Hwf].
    destruct (ZEXTEND_sym e w Hw He) as (e' & -> & Hw' & Hev).
    constructor; [exact Hw'| |].
    + intros rho. simpl. apply Hev, Hwf.
    + intros rho. apply byte_range. split; assumption.
Qed.

Lemma widened_value w b c rho :
  widened w b c -> eval_val rho c = eval_val rho b /\ 0 <= eval_val rho b < 256.
Proof.
  intros [z -> Hz|e _ He Hr]; simpl; auto.
Qed.

Lemma sub_value w b1 c1 b2 c2 rho :
  (8 <= w)%nat -> widened w b1 c1 -> widened w b2 c2 ->
  ret_value rho w (sub c1 c2) =
  (eval_val rho b1 - eval_val rho b2) mod modulus w.
Proof.
  intros Hw H1 H2. unfold ret_value.
  pose proof (modulus_pos w) as Hm.
  destruct H1 as [z1 -> Hz1|e1 W1 E1 R1], H2 as [z2 -> Hz2|e2 W2 E2 R2]; simpl.
  - reflexivity.
  - rewrite W2, E2, (small_mod z1 w Hw Hz1). apply Z.mod_mod; lia.
  - rewrite W1, E1. rewrite (small_mod z2 w Hw Hz2). apply Z.mod_mod; lia.
  - rewrite W1, E1, E2. apply Z.mod_mod; lia.
Qed.

Lemma ne_value w b1 c1 b2 c2 :
  (8 <= w)%nat -> widened w b1 c1 -> widened w b2 c2 ->
  issymbolic c1 || issymbolic c2 = true ->
  exists k, ne c1 c2 = CSym k /\
            forall rho, beval rho k =
                        negb (eval_val rho b1 =? eval_val rho b2).
Proof.
  intros Hw H1 H2 Hs.
  destruct H1 as [z1 -> Hz1|e1 W1 E1 R1], H2 as [z2 -> Hz2|e2 W2 E2 R2];
    simpl in *; try discriminate; eexists; (split; [reflexivity|]);
    intros rho; simpl.
  - rewrite W2, E2, (small_mod z1 w Hw Hz1). rewrite Z.eqb_sym. reflexivity.
  - rewrite W1, E1, (small_mod z2 w Hw Hz2). reflexivity.
  - rewrite E1, E2. reflexivity.
Qed.

Lemma ITEBV_value w k t r rho :
  ret_value rho w (ITEBV w (CSym k) t r) =
  if beval rho k then ret_value rho w t else ret_value rho w r.
Proof.
  unfold ret_value. pose proof (modulus_pos w) as Hm. simpl.
  destruct (beval rho k); [destruct t|destruct r]; simpl;
    try reflexivity; apply Z.mod_mod; lia.
Qed.

(** ** [strcmp] *)

Lemma strcmp_step_some cpu s1 s2 acc o :
  exists v, strcmp_step cpu s1 s2 acc o = Some v.
Proof.
  unfold strcmp_step. cbv zeta.
  destruct (issymbolic _ || issymbolic _).
  - destruct acc as [r|]; [destruct (is_zero_int r)|]; eexists; reflexivity.
  - destruct (ne _ _) as [[|]|]; destruct acc; eexists; reflexivity.
Qed.

Lemma strcmp_walk_some cpu s1 s2 :
  forall n acc, (0 < n)%nat \/ acc <> None ->
    exists v, fold_left (strcmp_step cpu s1 s2) (down_from n) acc = Some v.
Proof.
  induction n as [|n IH]; intros acc H.
  - destruct H as [H|H]; [lia|]. simpl. destruct acc; [eauto|congruence].
  - rewrite down_from_S. cbn [fold_left].
    destruct (strcmp_step_some cpu s1 s2 acc n) as [v ->].
    apply IH. right; discriminate.
Qed.

Lemma range_split (A : nat -> Prop) o M :
  (o <= M)%nat ->
  ((forall k, (o <= k <= M)%nat -> A k) <->
   A o /\ forall k, (S o <= k <= M)%nat -> A k).
Proof.
  intros Ho. split.
  - intros H; split; [apply H; lia|]. intros k Hk; apply H; lia.
  - intros [H0 H] k Hk. destruct (Nat.eq_dec k o) as [->|Hne]; [exact H0|].
    apply H; lia.
Qed.

Lemma strcmp_step_inv cpu s1 s2 acc o M :
  wf_cpu cpu -> (o <= M)%nat ->
  (forall rho, acc_value rho (address_bit_size cpu) acc = 0 <->
               forall k, (S o <= k <= M)%nat -> agree_at rho cpu s1 s2 k) ->
  forall rho,
    acc_value rho (address_bit_size cpu) (strcmp_step cpu s1 s2 acc o) = 0 <->
    forall k, (o <= k <= M)%nat -> agree_at rho cpu s1 s2 k.
Proof.
  intros [Hw Hmem] Ho Inv rho.
  rewrite (range_split _ o M Ho), <- Inv.
  set (w := address_bit_size cpu) in *.
  pose proof (ZEXTEND_widened _ w Hw (Hmem (ptr_add s1 o))) as W1.
  pose proof (ZEXTEND_widened _ w Hw (Hmem (ptr_add s2 o))) as W2.
  fold (read_int cpu (ptr_add s1 o)) in W1.
  fold (read_int cpu (ptr_add s2 o)) in W2.
  destruct (widened_value w _ _ rho W1) as [_ R1].
  destruct (widened_value w _ _ rho W2) as [_ R2].
  assert (Hsub : ret_value rho w (sub (ZEXTEND (read_int cpu (ptr_add s1 o)) w)
                                      (ZEXTEND (read_int cpu (ptr_add s2 o)) w)) = 0
                 <-> agree_at rho cpu s1 s2 o).
  { rewrite (sub_value w _ _ _ _ rho Hw W1 W2).
    apply byte_diff_zero; assumption. }
  unfold strcmp_step. fold w.
  destruct (issymbolic (ZEXTEND (read_int cpu (ptr_add s1 o)) w)
            || issymbolic (ZEXTEND (read_int cpu (ptr_add s2 o)) w)) eqn:Es.
  - destruct acc as [r|]; [destruct (is_zero_int r) eqn:Ez|].
    + destruct r as [z|]; [|discriminate]. apply Z.eqb_eq in Ez; subst z.
      cbn [acc_value]. rewrite Hsub. unfold ret_value at 1. simpl.
      rewrite Z.mod_0_l by (pose proof (modulus_pos w); lia). tauto.
    + destruct (ne_value w _ _ _ _ Hw W1 W2 Es) as [c [-> Hc]].
      cbn [acc_value]. rewrite ITEBV_value, Hc.
      unfold agree_at, cbyte in *.
      destruct (Z.eqb_spec (eval_val rho (read_int cpu (ptr_add s1 o)))
                           (eval_val rho (read_int cpu (ptr_add s2 o))));
        simpl; tauto.
    + cbn [acc_value]. rewrite Hsub. tauto.
  - apply orb_false_iff in Es as [E1 E2].
    destruct W1 as [z1 B1 Hz1|]; [|discriminate].
    destruct W2 as [z2 B2 Hz2|]; [|discriminate].
    unfold agree_at, cbyte. rewrite B1, B2. cbn [ne eval_val].
    destruct (Z.eqb_spec z1 z2) as [E|E]; cbn [negb].
    + destruct acc as [r|]; cbn [acc_value]; [tauto|].
      unfold ret_value; simpl.
      rewrite Z.mod_0_l by (pose proof (modulus_pos w); lia). tauto.
    + cbn [acc_value]. unfold ret_value. cbn [sub eval_val].
      rewrite (byte_diff_zero z1 z2 w Hw Hz1 Hz2). tauto.
Qed.

Lemma strcmp_walk_inv cpu s1 s2 M :
  wf_cpu cpu ->
  forall n acc, (n <= S M)%nat ->
    (forall rho, acc_value rho (address_bit_size cpu) acc = 0 <->
                 forall k, (n <= k <= M)%nat -> agree_at rho cpu s1 s2 k) ->
    forall rho,
      acc_value rho (address_bit_size cpu)
                (fold_left (strcmp_step cpu s1 s2) (down_from n) acc) = 0 <->
      forall k, (k <= M)%nat -> agree_at rho cpu s1 s2 k.
Proof.
  intros Hwf. induction n as [|n IH]; intros acc Hn Inv rho.
  - simpl. rewrite Inv. split; intros H k Hk; apply H; lia.
  - rewrite down_from_S. cbn [fold_left]. apply IH; [lia|].
    apply strcmp_step_inv; [exact Hwf|lia|exact Inv].
Qed.

Lemma strcmp_runs fuel st s1 s2 n1 n2 :
  first_null (cpu st) (constraints st) s1 n1 ->
  first_null (cpu st) (constraints st) s2 n2 ->
  (n1 < fuel)%nat -> (n2 < fuel)%nat ->
  strcmp fuel st (VInt s1) (VInt s2) =
  (Return (fold_left (strcmp_step (cpu st) s1 s2)
                     (down_from (S (Nat.min n1 n2))) None), st).
Proof.
  intros H1 H2 F1 F2. unfold strcmp.
  rewrite (proj2 (find_zero_iff _ _ s1 fuel n1) (conj H1 F1)).
  rewrite (proj2 (find_zero_iff _ _ s2 fuel n2) (conj H2 F2)).
  reflexivity.
Qed.

(** What the walk of [strcmp] computes: the result is never [None], and
    on a well-formed byte memory, under every assignment its value at
    pointer width is 0 exactly when the two strings have the same byte
    at every offset from 0 to the smaller of the two definite terminator
    offsets, whether or not a byte before that offset is zero under the
    assignment. *)
Lemma strcmp_zero_iff fuel st s1 s2 :
  (forall r st', strcmp fuel st s1 s2 = (Return r, st') -> r <> None) /\
  (forall p1 p2 n1 n2,
      s1 = VInt p1 -> s2 = VInt p2 ->
      wf_cpu (cpu st) ->
      first_null (cpu st) (constraints st) p1 n1 ->
      first_null (cpu st) (constraints st) p2 n2 ->
      (n1 < fuel)%nat -> (n2 < fuel)%nat ->
      exists v,
        strcmp fuel st s1 s2 = (Return (Some v), st) /\
        (forall rho,
            ret_value rho (address_bit_size (cpu st)) v = 0 <->
            forall k, (k <= Nat.min n1 n2)%nat -> agree_at rho (cpu st) p1 p2 k) /\
        (forall rho,
            holds rho (constraints st) ->
            ret_value rho (address_bit_size (cpu st)) v = 0 ->
            same_string rho (cpu st) p1 p2)).
Proof.
  split.
  - intros r st'. unfold strcmp.
    destruct s1 as [p1|]; [|discriminate]. destruct s2 as [p2|]; [|discriminate].
    destruct (_find_zero fuel (cpu st) (constraints st) p1) as [n1|];
      [|discriminate].
    destruct (_find_zero fuel (cpu st) (constraints st) p2) as [n2|];
      [|discriminate].
    intros H. injection H as <- _.
    destruct (strcmp_walk_some (cpu st) p1 p2 (S (Nat.min n1 n2)) None) as [v ->];
      [left; lia|discriminate].
  - intros p1 p2 n1 n2 -> -> Hwf H1 H2 F1 F2.
    rewrite (strcmp_runs fuel st p1 p2 n1 n2 H1 H2 F1 F2).
    destruct (strcmp_walk_some (cpu st) p1 p2 (S (Nat.min n1 n2)) None)
      as [v Hv]; [left; lia|].
    exists v. split; [rewrite Hv; reflexivity|].
    assert (Hiff : forall rho,
               ret_value rho (address_bit_size (cpu st)) v = 0 <->
               forall k, (k <= Nat.min n1 n2)%nat ->
                         agree_at rho (cpu st) p1 p2 k).
    { intros rho.
      pose proof (strcmp_walk_inv (cpu st) p1 p2 (Nat.min n1 n2) Hwf
                    (S (Nat.min n1 n2)) None (le_n _)) as K.
      rewrite Hv in K. apply K. intros rho'. simpl.
      split; [intros _ k Hk; lia|reflexivity]. }
    split; [exact Hiff|].
    intros rho Hcs Hz. rewrite Hiff in Hz.
    exists (Nat.min n1 n2). split; [exact Hz|].
    destruct H1 as [Z1 _], H2 as [Z2 _].
    destruct (Nat.min_dec n1 n2) as [E|E]; rewrite E.
    + apply (is_NULL_eval rho _ _ Hcs Z1).
    + specialize (Hz n2). rewrite E in Hz. unfold agree_at in Hz.
      rewrite Hz by lia. apply (is_NULL_eval rho _ _ Hcs Z2).
Qed.

Lemma layout_byte_ok base bytes fill :
  Forall byte_ok bytes -> (forall a, byte_ok (fill a)) ->
  forall a, byte_ok (layout base bytes fill a).
Proof.
  intros Hb Hf a. unfold layout.
  destruct ((base <=? a) && (a <? base + Z.of_nat (length bytes))) eqn:E;
    [|apply Hf].
  apply andb_true_iff in E as [E1 E2].
  apply Z.leb_le in E1. apply Z.ltb_lt in E2.
  rewrite Forall_forall in Hb. apply Hb, nth_In. lia.
Qed.

Lemma zeroes_byte_ok a : byte_ok (zeroes a).
Proof. simpl. lia. Qed.

Lemma abc_abd_wf : wf_cpu (cpu abc_abd).
Proof.
  split; [simpl; lia|]. simpl.
  apply layout_byte_ok; [repeat constructor; simpl; lia|].
  apply layout_byte_ok; [repeat constructor; simpl; lia|].
  exact zeroes_byte_ok.
Defined.

Lemma abc_abd_first_null :
  first_null (cpu abc_abd) [] 100 3 /\ first_null (cpu abc_abd) [] 200 3.
Proof.
  split; (split; [reflexivity|]); intros m Hm;
    do 3 (destruct m as [|m]; [reflexivity|]); lia.
Defined.

Lemma strcmp_zero_iff_witness :
  exists v,
    strcmp 5 abc_abd (VInt 100) (VInt 200) = (Return (Some v), abc_abd) /\
    (forall rho,
        ret_value rho 64 v = 0 <->
        forall k, (k <= 3)%nat -> agree_at rho (cpu abc_abd) 100 200 k) /\
    (forall rho,
        holds rho [] -> ret_value rho 64 v = 0 ->
        same_string rho (cpu abc_abd) 100 200).
Proof.
  apply (proj2 (strcmp_zero_iff 5 abc_abd (VInt 100) (VInt 200))
               100 200 3%nat 3%nat eq_refl eq_refl abc_abd_wf
               (proj1 abc_abd_first_null) (proj2 abc_abd_first_null));
    lia.
Defined.

Lemma twins_x rho :
  holds rho (constraints twins) -> eval rho x = 0 \/ eval rho x = 1.
Proof.
  intros H. inversion H as [|c l Hc _]; subst. clear H.
  cbn [beval eval] in Hc. fold (eval rho x) in Hc.
  change (0 mod modulus 8) with 0 in Hc.
  change (1 mod modulus 8) with 1 in Hc.
  destruct (Z.eqb_spec (eval rho x) 0) as [E|E]; [left; exact E|].
  right. apply Z.eqb_eq in Hc. exact Hc.
Qed.

(** C7 fails in the code: [strcmp] takes no account of a symbolic byte
    that is the terminator before the definite one.  The two strings of
    [twins], the bytes [x, x, 0] and [x, 1, 0] with [x] constrained to 0
    or 1, are identical up to and including their terminator under every
    assignment that satisfies the constraints, and the C library's
    [strcmp] returns 0 on them.  [strcmp] returns a value, not [None],
    but the value is an expression that is [2^64 - 1] when [x] is 0,
    where both strings are empty.  [strlen] on the first of them does
    take the early terminator into account: its value is 0 there. *)
Theorem strcmp_ignores_early_terminator :
  (forall rho, holds rho (constraints twins) ->
               same_string rho (cpu twins) 100 200 /\
               ref_strcmp 5 (cbyte rho (cpu twins)) 100 200 = Some 0) /\
  holds (fun _ _ => 0) (constraints twins) /\
  (exists v,
    strcmp 5 twins (VInt 100) (VInt 200) = (Return (Some v), twins) /\
    v <> VInt 0 /\
    ret_value (fun _ _ => 0) 64 v = 2 ^ 64 - 1) /\
  (exists l,
    strlen 5 twins (VInt 100) = (Return l, twins) /\
    ret_value (fun _ _ => 0) 64 l = 0).
Proof.
  split; [|split; [|split]].
  - intros rho H. apply twins_x in H.
    assert (B100 : cbyte rho (cpu twins) 100 = eval rho x) by reflexivity.
    assert (B101 : cbyte rho (cpu twins) 101 = eval rho x) by reflexivity.
    assert (B102 : cbyte rho (cpu twins) 102 = 0) by reflexivity.
    assert (B200 : cbyte rho (cpu twins) 200 = eval rho x) by reflexivity.
    assert (B201 : cbyte rho (cpu twins) 201 = 1) by reflexivity.
    assert (B202 : cbyte rho (cpu twins) 202 = 0) by reflexivity.
    destruct H as [Hx|Hx]; split.
    + exists 0%nat. split; [|exact Hx].
      intros k Hk. replace k with 0%nat by lia. reflexivity.
    + cbn [ref_strcmp]. rewrite B100, B200, Hx. reflexivity.
    + exists 2%nat. split; [|reflexivity].
      intros k Hk.
      destruct k as [|[|[|k]]]; [reflexivity|exact Hx|reflexivity|lia].
    + cbn [ref_strcmp].
      change (100 + 1) with 101. change (200 + 1) with 201.
      change (101 + 1) with 102. change (201 + 1) with 202.
      rewrite B100, B200, B101, B201, B102, B202, Hx. reflexivity.
  - constructor; [vm_compute; reflexivity|constructor].
  - eexists. split; [vm_compute; reflexivity|]. split; [discriminate|].
    vm_compute. reflexivity.
  - eexists. split; [vm_compute; reflexivity|]. vm_compute. reflexivity.
Qed.

(** Pairs of integer bytes in the walk of [strcmp]. *)
Section ConcretePairs.

Variables (cpu : Cpu) (s1 s2 : Z).
Hypothesis Hwf : wf_cpu cpu.

Lemma strcmp_step_concrete_ne acc o a b :
  read_int cpu (ptr_add s1 o) = VInt a ->
  read_int cpu (ptr_add s2 o) = VInt b ->
  a <> b ->
  strcmp_step cpu s1 s2 acc o = Some (VInt (a - b)).
Proof.
  intros H1 H2 Hne. pose proof Hwf as [Hw Hmem].
  unfold strcmp_step. rewrite H1, H2.
  pose proof (Hmem (ptr_add s1 o)) as B1. fold (read_int cpu (ptr_add s1 o)) in B1.
  pose proof (Hmem (ptr_add s2 o)) as B2. fold (read_int cpu (ptr_add s2 o)) in B2.
  rewrite H1 in B1. rewrite H2 in B2.
  rewrite !ZEXTEND_int by assumption. simpl.
  apply Z.eqb_neq in Hne. rewrite Hne. reflexivity.
Qed.

Lemma strcmp_step_concrete_eq r o c :
  read_int cpu (ptr_add s1 o) = VInt c ->
  read_int cpu (ptr_add s2 o) = VInt c ->
  strcmp_step cpu s1 s2 (Some r) o = Some r.
Proof.
  intros H1 H2. pose proof Hwf as [Hw Hmem].
  unfold strcmp_step. rewrite H1, H2.
  pose proof (Hmem (ptr_add s1 o)) as B1. fold (read_int cpu (ptr_add s1 o)) in B1.
  rewrite H1 in B1.
  rewrite !ZEXTEND_int by assumption. simpl.
  rewrite Z.eqb_refl. reflexivity.
Qed.

Lemma strcmp_walk_concrete_eq r :
  forall n,
    (forall j, (j < n)%nat ->
       exists c, read_int cpu (ptr_add s1 j) = VInt c /\
                 read_int cpu (ptr_add s2 j) = VInt c) ->
    fold_left (strcmp_step cpu s1 s2) (down_from n) (Some r) = Some r.
Proof.
  induction n as [|n IH]; intros H; [reflexivity|].
  rewrite down_from_S. cbn [fold_left].
  destruct (H n (Nat.lt_succ_diag_r n)) as [c [H1 H2]].
  rewrite (strcmp_step_concrete_eq r n c H1 H2).
  apply IH. intros j Hj. apply H. lia.
Qed.

Lemma down_from_split k M :
  (k <= M)%nat ->
  down_from (S M) = rev (seq (S k) (M - k)) ++ k :: down_from k.
Proof.
  intros H. rewrite <- down_from_S. unfold down_from.
  replace (S M) with (S k + (M - k))%nat by lia.
  rewrite seq_app, rev_app_distr. reflexivity.
Qed.

Lemma strcmp_walk_mismatch k M a b :
  (k <= M)%nat ->
  read_int cpu (ptr_add s1 k) = VInt a ->
  read_int cpu (ptr_add s2 k) = VInt b ->
  a <> b ->
  (forall j, (j < k)%nat ->
     exists c, read_int cpu (ptr_add s1 j) = VInt c /\
               read_int cpu (ptr_add s2 j) = VInt c) ->
  fold_left (strcmp_step cpu s1 s2) (down_from (S M)) None = Some (VInt (a - b)).
Proof.
  intros Hk H1 H2 Hne Heq.
  rewrite (down_from_split k M Hk), fold_left_app. cbn [fold_left].
  rewrite (strcmp_step_concrete_ne _ k a b H1 H2 Hne).
  apply strcmp_walk_concrete_eq; assumption.
Qed.

End ConcretePairs.

Lemma ptr_add_S p j : ptr_add p (S j) = ptr_add (p + 1) j.
Proof. unfold ptr_add. lia. Qed.

Lemma ref_strcmp_mismatch (m : Z -> Z) :
  forall k fuel s1 s2,
    (k < fuel)%nat ->
    (forall j, (j < k)%nat ->
       m (ptr_add s1 j) = m (ptr_add s2 j) /\ m (ptr_add s1 j) <> 0) ->
    m (ptr_add s1 k) <> m (ptr_add s2 k) ->
    ref_strcmp fuel m s1 s2 = Some (m (ptr_add s1 k) - m (ptr_add s2 k)).
Proof.
  induction k as [|k IH]; intros fuel s1 s2 Hf Heq Hne;
    (destruct fuel as [|fuel]; [lia|]); cbn [ref_strcmp].
  - rewrite (ptr_add_0 s1), (ptr_add_0 s2) in *.
    apply Z.eqb_neq in Hne. rewrite Hne. reflexivity.
  - destruct (Heq 0%nat) as [E N]; [lia|].
    rewrite (ptr_add_0 s1), (ptr_add_0 s2) in E. rewrite (ptr_add_0 s1) in N.
    apply Z.eqb_eq in E. rewrite E. apply Z.eqb_neq in N. rewrite N.
    rewrite (ptr_add_S s1 k), (ptr_add_S s2 k) in *.
    apply IH; [lia| |exact Hne].
    intros j Hj. rewrite <- (ptr_add_S s1 j), <- (ptr_add_S s2 j).
    apply Heq. lia.
Qed.

Lemma ref_strcmp_equal (m : Z -> Z) :
  forall n fuel s1 s2,
    (n < fuel)%nat ->
    (forall j, (j < n)%nat ->
       m (ptr_add s1 j) = m (ptr_add s2 j) /\ m (ptr_add s1 j) <> 0) ->
    m (ptr_add s1 n) = 0 -> m (ptr_add s2 n) = 0 ->
    ref_strcmp fuel m s1 s2 = Some 0.
Proof.
  induction n as [|n IH]; intros fuel s1 s2 Hf Heq Z1 Z2;
    (destruct fuel as [|fuel]; [lia|]); cbn [ref_strcmp].
  - rewrite (ptr_add_0 s1) in Z1. rewrite (ptr_add_0 s2) in Z2.
    rewrite Z1, Z2. reflexivity.
  - destruct (Heq 0%nat) as [E N]; [lia|].
    rewrite (ptr_add_0 s1), (ptr_add_0 s2) in E. rewrite (ptr_add_0 s1) in N.
    apply Z.eqb_eq in E. rewrite E. apply Z.eqb_neq in N. rewrite N.
    rewrite (ptr_add_S s1 n) in Z1. rewrite (ptr_add_S s2 n) in Z2.
    apply IH; [lia| |exact Z1|exact Z2].
    intros j Hj. rewrite <- (ptr_add_S s1 j), <- (ptr_add_S s2 j).
    apply Heq. lia.
Qed.

(** C8: when the bytes at offset [k] of the walk are two different
    integers and the bytes at every smaller offset are equal integers,
    [strcmp] returns the integer difference of the two bytes at [k],
    whatever was built at the larger offsets, and the reference
    [strcmp] returns the same on the strings read under any assignment
    (so under every satisfying one). *)
Theorem strcmp_concrete_mismatch fuel st s1 s2 n1 n2 k a b :
  wf_cpu (cpu st) ->
  first_null (cpu st) (constraints st) s1 n1 ->
  first_null (cpu st) (constraints st) s2 n2 ->
  (n1 < fuel)%nat -> (n2 < fuel)%nat ->
  (k <= Nat.min n1 n2)%nat ->
  read_int (cpu st) (ptr_add s1 k) = VInt a ->
  read_int (cpu st) (ptr_add s2 k) = VInt b ->
  a <> b ->
  (forall j, (j < k)%nat ->
     exists c, read_int (cpu st) (ptr_add s1 j) = VInt c /\
               read_int (cpu st) (ptr_add s2 j) = VInt c) ->
  strcmp fuel st (VInt s1) (VInt s2) = (Return (Some (VInt (a - b))), st) /\
  forall rho fuel', (k < fuel')%nat ->
    ref_strcmp fuel' (cbyte rho (cpu st)) s1 s2 = Some (a - b).
Proof.
  intros Hwf N1 N2 F1 F2 Hk H1 H2 Hne Heq. split.
  - rewrite (strcmp_runs fuel st s1 s2 n1 n2 N1 N2 F1 F2).
    rewrite (strcmp_walk_mismatch (cpu st) s1 s2 Hwf k _ a b Hk H1 H2 Hne Heq).
    reflexivity.
  - intros rho fuel' Hf.
    replace a with (cbyte rho (cpu st) (ptr_add s1 k))
      by (unfold cbyte; rewrite H1; reflexivity).
    replace b with (cbyte rho (cpu st) (ptr_add s2 k))
      by (unfold cbyte; rewrite H2; reflexivity).
    apply ref_strcmp_mismatch; [exact Hf| |].
    + intros j Hj. destruct (Heq j Hj) as [c [C1 C2]].
      unfold cbyte. rewrite C1, C2. split; [reflexivity|]. simpl.
      destruct N1 as [_ N1]. specialize (N1 j ltac:(lia)).
      rewrite C1 in N1. simpl in N1. apply Z.eqb_neq in N1. exact N1.
    + unfold cbyte. rewrite H1, H2. exact Hne.
Qed.

Lemma strcmp_concrete_mismatch_witness :
  strcmp 5 abc_abd (VInt 100) (VInt 200) =
    (Return (Some (VInt (99 - 100))), abc_abd) /\
  ref_strcmp 3 (cbyte (fun _ _ => 0) (cpu abc_abd)) 100 200 = Some (99 - 100).
Proof.
  assert (H : forall j, (j < 2)%nat ->
     exists c, read_int (cpu abc_abd) (ptr_add 100 j) = VInt c /\
               read_int (cpu abc_abd) (ptr_add 200 j) = VInt c).
  { intros j Hj. destruct j as [|[|j]]; [exists 97|exists 98|lia];
      split; reflexivity. }
  destruct (strcmp_concrete_mismatch 5 abc_abd 100 200 3 3 2 99 100
              abc_abd_wf (proj1 abc_abd_first_null) (proj2 abc_abd_first_null)
              ltac:(lia) ltac:(lia) ltac:(simpl; lia)
              eq_refl eq_refl ltac:(lia) H) as [R1 R2].
  split; [exact R1|]. apply R2. lia.
Defined.

(** ** Fully concrete memory *)

Lemma concrete_read cpu a :
  concrete_memory cpu -> exists z, read_int cpu a = VInt z /\ 0 <= z < 256.
Proof. intros H. apply H. Qed.

Lemma concrete_wf cpu :
  concrete_memory cpu -> (8 <= address_bit_size cpu)%nat -> wf_cpu cpu.
Proof.
  intros H Hw. split; [exact Hw|]. intros a.
  destruct (H a) as [z [-> Hz]]. exact Hz.
Qed.

Lemma first_zero_null cpu cs s n :
  concrete_memory cpu -> first_zero cpu s n -> first_null cpu cs s n.
Proof.
  intros Hc [Hz Hnz]. split.
  - rewrite Hz. reflexivity.
  - intros m Hm. specialize (Hnz m Hm).
    destruct (concrete_read cpu (ptr_add s m) Hc) as [z [E _]].
    rewrite E in *. simpl. apply Z.eqb_neq. congruence.
Qed.

Lemma strlen_walk_concrete cpu s :
  concrete_memory cpu ->
  forall l ret, fold_left (strlen_step cpu s) l ret = ret.
Proof.
  intros Hc. induction l as [|o l IH]; intros ret; [reflexivity|].
  cbn [fold_left]. unfold strlen_step at 2.
  destruct (concrete_read cpu (ptr_add s o) Hc) as [z [-> _]]. simpl. apply IH.
Qed.

Lemma first_difference (f g : nat -> Z) :
  forall M,
    (forall j, (j <= M)%nat -> f j = g j) \/
    (exists k, (k <= M)%nat /\ f k <> g k /\ forall j, (j < k)%nat -> f j = g j).
Proof.
  induction M as [|M IH].
  - destruct (Z.eq_dec (f 0%nat) (g 0%nat)) as [E|E].
    + left. intros j Hj. replace j with 0%nat by lia. exact E.
    + right. exists 0%nat. split; [lia|]. split; [exact E|]. intros j Hj; lia.
  - destruct IH as [IH|(k & Hk & Hne & Heq)].
    + destruct (Z.eq_dec (f (S M)) (g (S M))) as [E|E].
      * left. intros j Hj. destruct (Nat.eq_dec j (S M)) as [->|Hn]; [exact E|].
        apply IH; lia.
      * right. exists (S M). split; [lia|]. split; [exact E|].
        intros j Hj. apply IH; lia.
    + right. exists k. split; [lia|]. split; assumption.
Qed.

Lemma strcmp_step_concrete_eq_none cpu s1 s2 o c :
  wf_cpu cpu ->
  read_int cpu (ptr_add s1 o) = VInt c ->
  read_int cpu (ptr_add s2 o) = VInt c ->
  strcmp_step cpu s1 s2 None o = Some (VInt 0).
Proof.
  intros [Hw Hmem] H1 H2. unfold strcmp_step. rewrite H1, H2.
  pose proof (Hmem (ptr_add s1 o)) as B1. fold (read_int cpu (ptr_add s1 o)) in B1.
  rewrite H1 in B1.
  rewrite !ZEXTEND_int by assumption. simpl.
  rewrite Z.eqb_refl. reflexivity.
Qed.

Lemma strcmp_concrete fuel st s1 s2 n1 n2 rho :
  concrete_memory (cpu st) -> (8 <= address_bit_size (cpu st))%nat ->
  first_zero (cpu st) s1 n1 -> first_zero (cpu st) s2 n2 ->
  (n1 < fuel)%nat -> (n2 < fuel)%nat ->
  exists r,
    ref_strcmp fuel (cbyte rho (cpu st)) s1 s2 = Some r /\
    strcmp fuel st (VInt s1) (VInt s2) = (Return (Some (VInt r)), st).
Proof.
  intros Hc Hw Z1 Z2 F1 F2.
  pose proof (concrete_wf _ Hc Hw) as Hwf.
  pose proof (first_zero_null _ (constraints st) _ _ Hc Z1) as N1.
  pose proof (first_zero_null _ (constraints st) _ _ Hc Z2) as N2.
  rewrite (strcmp_runs fuel st s1 s2 n1 n2 N1 N2 F1 F2).
  set (M := Nat.min n1 n2).
  assert (Hnz : forall j, (j < M)%nat -> cbyte rho (cpu st) (ptr_add s1 j) <> 0).
  { intros j Hj. destruct Z1 as [_ Z1]. specialize (Z1 j ltac:(lia)).
    unfold cbyte. destruct (concrete_read _ (ptr_add s1 j) Hc) as [z [E _]].
    rewrite E in *. simpl. congruence. }
  assert (Hval : forall s j, read_int (cpu st) (ptr_add s j) =
                             VInt (cbyte rho (cpu st) (ptr_add s j))).
  { intros s j. unfold cbyte.
    destruct (concrete_read _ (ptr_add s j) Hc) as [z [-> _]]. reflexivity. }
  destruct (first_difference (fun j => cbyte rho (cpu st) (ptr_add s1 j))
                             (fun j => cbyte rho (cpu st) (ptr_add s2 j)) M)
    as [Heq|(k & Hk & Hne & Heq)]; cbv beta in *.
  - exists 0. split.
    + apply (ref_strcmp_equal _ M); [lia| | |].
      * intros j Hj. split; [apply Heq; lia|apply Hnz, Hj].
      * destruct (Nat.min_dec n1 n2) as [E|E]; fold M in E.
        -- unfold cbyte. rewrite E. rewrite (proj1 Z1). reflexivity.
        -- rewrite Heq by lia. unfold cbyte. rewrite E, (proj1 Z2). reflexivity.
      * destruct (Nat.min_dec n1 n2) as [E|E]; fold M in E.
        -- rewrite <- Heq by lia. unfold cbyte. rewrite E, (proj1 Z1). reflexivity.
        -- unfold cbyte. rewrite E, (proj1 Z2). reflexivity.
    + rewrite down_from_S. cbn [fold_left].
      rewrite (strcmp_step_concrete_eq_none _ s1 s2 M
                 (cbyte rho (cpu st) (ptr_add s1 M)) Hwf (Hval s1 M));
        [|rewrite Hval, Heq by lia; reflexivity].
      rewrite strcmp_walk_concrete_eq; [reflexivity|exact Hwf|].
      intros j Hj. exists (cbyte rho (cpu st) (ptr_add s1 j)).
      split; [apply Hval|]. rewrite Hval, Heq by lia. reflexivity.
  - exists (cbyte rho (cpu st) (ptr_add s1 k) - cbyte rho (cpu st) (ptr_add s2 k)).
    split.
    + apply ref_strcmp_mismatch; [lia| |exact Hne].
      intros j Hj. split; [apply Heq, Hj|apply Hnz; lia].
    + rewrite (strcmp_walk_mismatch (cpu st) s1 s2 Hwf k M _ _ Hk
                 (Hval s1 k) (Hval s2 k) Hne); [reflexivity|].
      intros j Hj. exists (cbyte rho (cpu st) (ptr_add s1 j)).
      split; [apply Hval|]. rewrite Hval, Heq by lia. reflexivity.
Qed.

Lemma write_int_memory cpu w v a :
  memory (write_int cpu w v) a = if a =? w then as_byte v else memory cpu a.
Proof. reflexivity. Qed.

Lemma as_byte_small z : 0 <= z < 256 -> as_byte (VInt z) = VInt z.
Proof.
  intros Hz. simpl. change 255 with (Z.ones 8).
  rewrite Z.land_ones by lia. rewrite Z.mod_small by (simpl; lia). reflexivity.
Qed.

Lemma write_int_concrete cpu w z :
  concrete_memory cpu -> 0 <= z < 256 -> concrete_memory (write_int cpu w (VInt z)).
Proof.
  intros Hc Hz a. rewrite write_int_memory. destruct (a =? w).
  - exists z. split; [apply as_byte_small, Hz|exact Hz].
  - apply Hc.
Qed.

Lemma strcpy_copy_concrete cs :
  forall n fuel cpu dst src,
    concrete_memory cpu -> first_zero cpu src n ->
    ~ (src < dst <= src + Z.of_nat n) -> (n < fuel)%nat ->
    exists cpu' dst' src',
      strcpy_copy fuel cpu cs dst src (read_int cpu src)
      = Some (cpu', dst', src', VInt 0) /\
      dst' = dst + Z.of_nat n /\ src' = src + Z.of_nat n /\
      address_bit_size cpu' = address_bit_size cpu /\
      forall a, memory cpu' a =
                if (dst <=? a) && (a <? dst + Z.of_nat n)
                then memory cpu (src + (a - dst)) else memory cpu a.
Proof.
  induction n as [|n IH]; intros fuel cpu dst src Hc [Hz Hnz] Hov Hf;
    (destruct fuel as [|fuel]; [lia|]); cbn [strcpy_copy].
  - rewrite ptr_add_0 in Hz. rewrite Hz. simpl.
    exists cpu, dst, src. split; [reflexivity|].
    split; [lia|]. split; [lia|]. split; [reflexivity|].
    intros a. replace ((dst <=? a) && (a <? dst + 0)) with false; [reflexivity|].
    symmetry. apply andb_false_iff.
    destruct (Z.leb_spec dst a); [right; apply Z.ltb_ge; lia|left; reflexivity].
  - destruct (concrete_read cpu src Hc) as [z [Ez Rz]].
    assert (Hz0 : z <> 0).
    { specialize (Hnz 0%nat ltac:(lia)). rewrite ptr_add_0, Ez in Hnz. congruence. }
    rewrite Ez. cbn [not_NULL]. apply Z.eqb_neq in Hz0. rewrite Hz0. cbn [negb].
    set (cpu1 := write_int cpu dst (VInt z)).
    assert (Hsame : forall m, (m <= n)%nat ->
              read_int cpu1 (ptr_add (src + 1) m) = read_int cpu (ptr_add src (S m))).
    { intros m Hm. unfold read_int, cpu1. rewrite write_int_memory.
      rewrite <- ptr_add_S.
      replace (ptr_add src (S m) =? dst) with false; [reflexivity|].
      symmetry. apply Z.eqb_neq. unfold ptr_add. lia. }
    destruct (IH fuel cpu1 (dst + 1) (src + 1)) as (cpu' & d' & s' & E & Ed & Es & Ea & Em).
    + apply write_int_concrete; assumption.
    + split.
      * rewrite Hsame by lia. exact Hz.
      * intros m Hm. rewrite Hsame by lia. apply Hnz. lia.
    + lia.
    + lia.
    + exists cpu', d', s'. split; [exact E|].
      split; [lia|]. split; [lia|]. split; [rewrite Ea; reflexivity|].
      intros a. rewrite Em. unfold cpu1. rewrite !write_int_memory.
      rewrite (as_byte_small z Rz).
      destruct (Z.leb_spec (dst + 1) a); destruct (Z.ltb_spec a (dst + 1 + Z.of_nat n));
        destruct (Z.leb_spec dst a); destruct (Z.ltb_spec a (dst + Z.of_nat (S n)));
        cbn [andb]; try lia.
      all: match goal with
           | |- context [?u =? ?v] => destruct (Z.eqb_spec u v)
           end; try lia; try reflexivity.
      * f_equal. lia.
      * subst a. replace (src + (dst - dst)) with src by lia.
        symmetry. exact Ez.
Qed.

Lemma strcpy_concrete fuel st dst src n :
  concrete_memory (cpu st) -> first_zero (cpu st) src n ->
  ~ (src < dst <= src + Z.of_nat n) -> (n < fuel)%nat ->
  exists st',
    strcpy fuel st (VInt dst) (VInt src) = (Return (VInt dst), st') /\
    constraints st' = constraints st /\
    address_bit_size (cpu st') = address_bit_size (cpu st) /\
    forall a, memory (cpu st') a =
              if (dst <=? a) && (a <=? dst + Z.of_nat n)
              then memory (cpu st) (src + (a - dst)) else memory (cpu st) a.
Proof.
  intros Hc Hz Hov Hf.
  destruct (strcpy_copy_concrete (constraints st) n fuel (cpu st) dst src
              Hc Hz Hov Hf) as (cpu' & d' & s' & E & -> & -> & Ea & Em).
  unfold strcpy. rewrite E. cbn [is_NULL]. rewrite Z.eqb_refl.
  eexists. split; [reflexivity|]. split; [reflexivity|].
  split; [exact Ea|].
  intros a. cbn [with_cpu cpu]. rewrite write_int_memory, Em.
  destruct (Z.eqb_spec a (dst + Z.of_nat n)) as [->|Hne].
  - replace ((dst <=? dst + Z.of_nat n) && (dst + Z.of_nat n <=? dst + Z.of_nat n))
      with true by (symmetry; apply andb_true_iff; split; apply Z.leb_le; lia).
    replace (src + (dst + Z.of_nat n - dst)) with (ptr_add src n)
      by (unfold ptr_add; lia).
    symmetry. exact (proj1 Hz).
  - destruct (Z.leb_spec dst a); destruct (Z.ltb_spec a (dst + Z.of_nat n));
      destruct (Z.leb_spec a (dst + Z.of_nat n)); cbn [andb];
      try reflexivity; lia.
Qed.

(** C1, as amended: on fully concrete memory holding null-terminated
    strings at [s1] and [s2], [strlen] returns the index of the first
    zero byte, [strcmp] returns what the reference [strcmp] returns on
    the same bytes, and [strcpy] to a destination that does not lie
    inside the source string after its first byte copies the string up
    to and including its zero byte, leaves every other byte and the
    constraints as they were, and returns the destination pointer. *)
Theorem concrete_models_match_libc fuel st s1 s2 dst n1 n2 :
  concrete_memory (cpu st) -> (8 <= address_bit_size (cpu st))%nat ->
  first_zero (cpu st) s1 n1 -> first_zero (cpu st) s2 n2 ->
  (n1 < fuel)%nat -> (n2 < fuel)%nat ->
  strlen fuel st (VInt s1) = (Return (VInt (Z.of_nat n1)), st) /\
  (forall rho, exists r,
      ref_strcmp fuel (cbyte rho (cpu st)) s1 s2 = Some r /\
      strcmp fuel st (VInt s1) (VInt s2) = (Return (Some (VInt r)), st)) /\
  (~ (s1 < dst <= s1 + Z.of_nat n1) ->
   exists st',
     strcpy fuel st (VInt dst) (VInt s1) = (Return (VInt dst), st') /\
     constraints st' = constraints st /\
     address_bit_size (cpu st') = address_bit_size (cpu st) /\
     forall a, memory (cpu st') a =
               if (dst <=? a) && (a <=? dst + Z.of_nat n1)
               then memory (cpu st) (s1 + (a - dst)) else memory (cpu st) a).
Proof.
  intros Hc Hw Z1 Z2 F1 F2. split; [|split].
  - unfold strlen.
    rewrite (proj2 (find_zero_iff _ _ s1 fuel n1)
               (conj (first_zero_null _ _ _ _ Hc Z1) F1)).
    rewrite strlen_walk_concrete by exact Hc. reflexivity.
  - intros rho. apply (strcmp_concrete fuel st s1 s2 n1 n2); assumption.
  - intros Hov. apply strcpy_concrete; assumption.
Qed.

Lemma layout_concrete base bytes fill :
  Forall (fun b => exists z, b = VInt z /\ 0 <= z < 256) bytes ->
  (forall a, exists z, fill a = VInt z /\ 0 <= z < 256) ->
  forall a, exists z, layout base bytes fill a = VInt z /\ 0 <= z < 256.
Proof.
  intros Hb Hf a. unfold layout.
  destruct ((base <=? a) && (a <? base + Z.of_nat (length bytes))) eqn:E;
    [|apply Hf].
  apply andb_true_iff in E as [E1 E2].
  apply Z.leb_le in E1. apply Z.ltb_lt in E2.
  rewrite Forall_forall in Hb. apply Hb, nth_In. lia.
Qed.

Lemma hello_concrete : concrete_memory hello.
Proof.
  unfold concrete_memory. simpl.
  apply layout_concrete.
  - repeat constructor; eexists; (split; [reflexivity|lia]).
  - intros a. exists 0. split; [reflexivity|lia].
Defined.

Lemma hello_first_zero : first_zero hello 100 5.
Proof.
  split; [reflexivity|]. intros m Hm.
  do 5 (destruct m as [|m]; [vm_compute; discriminate|]). lia.
Defined.

Lemma concrete_models_match_libc_witness :
  strlen 6 {| cpu := hello; constraints := [] |} (VInt 100)
  = (Return (VInt 5), {| cpu := hello; constraints := [] |}) /\
  exists st',
    strcpy 6 {| cpu := hello; constraints := [] |} (VInt 300) (VInt 100)
    = (Return (VInt 300), st') /\
    memory (cpu st') 300 = VInt 104 /\ memory (cpu st') 305 = VInt 0.
Proof.
  destruct (concrete_models_match_libc 6 {| cpu := hello; constraints := [] |}
              100 100 300 5 5 hello_concrete ltac:(simpl; lia)
              hello_first_zero hello_first_zero ltac:(lia) ltac:(lia))
    as (L & _ & C).
  split; [exact L|].
  destruct C as (st' & E & _ & _ & M); [simpl; lia|].
  exists st'. split; [exact E|]. rewrite !M. split; reflexivity.
Defined.

Lemma strcpy_copy_overlap cs :
  forall fuel cpu src,
    strcpy_copy fuel cpu cs (src + 1) src (VInt 97) = None.
Proof.
  induction fuel as [|fuel IH]; intros cpu src; [reflexivity|].
  cbn [strcpy_copy not_NULL]. change (negb (97 =? 0)) with true. cbv iota.
  replace (read_int (write_int cpu (src + 1) (VInt 97)) (src + 1))
    with (VInt 97).
  - apply IH.
  - unfold read_int. rewrite write_int_memory, Z.eqb_refl. reflexivity.
Qed.

(** C1 as stated fails: with the one-letter string "a" at address 100
    and the destination one byte further, every byte written is the
    next byte read, and [strcpy] never returns. *)
Lemma strcpy_overlap_never_returns :
  first_zero (cpu letter_a) 100 1 /\
  ~ exists fuel r st',
      strcpy fuel letter_a (VInt 101) (VInt 100) = (Return r, st').
Proof.
  split.
  - split; [reflexivity|]. intros m Hm.
    destruct m as [|m]; [vm_compute; discriminate|lia].
  - intros (fuel & r & st' & H).
    assert (E : fst (strcpy fuel letter_a (VInt 101) (VInt 100)) = OutOfFuel).
    { unfold strcpy.
      replace (strcpy_copy fuel (cpu letter_a) (constraints letter_a) 101 100
                           (read_int (cpu letter_a) 100))
        with (@None (Cpu * Z * Z * val)); [reflexivity|].
      symmetry. exact (strcpy_copy_overlap [] fuel (cpu letter_a) 100). }
    rewrite H in E. discriminate.
Qed.

(** ** The terminator written by [strcpy] *)





Lemma tail_run_S src dst f n cpu :
  tail_run src dst f (S n) cpu =
  tail_run src dst f n (write_int cpu (ptr_add dst n) (tail_value src dst f cpu n)).
Proof. unfold tail_run. rewrite down_from_S. reflexivity. Qed.

Lemma tail_run_frame src dst f :
  forall n cpu a,
    (forall o, (o < n)%nat -> a <> ptr_add dst o) ->
    memory (tail_run src dst f n cpu) a = memory cpu a.
Proof.
  induction n as [|n IH]; intros cpu a H; [reflexivity|].
  rewrite tail_run_S, IH by (intros o Ho; apply H; lia).
  rewrite write_int_memory.
  replace (a =? ptr_add dst n) with false; [reflexivity|].
  symmetry. apply Z.eqb_neq, H. lia.
Qed.

Lemma bounded_zero (g : nat -> Z) :
  forall n, (exists z, (z < n)%nat /\ g z = 0) \/
            (forall z, (z < n)%nat -> g z <> 0).
Proof.
  induction n as [|n [(z & Hz & E)|IH]].
  - right. intros z Hz; lia.
  - left. exists z. split; [lia|exact E].
  - destruct (Z.eq_dec (g n) 0) as [E|E].
    + left. exists n. split; [lia|exact E].
    + right. intros z Hz. destruct (Nat.eq_dec z n) as [->|Hn]; [exact E|].
      apply IH; lia.
Qed.


Lemma zero_can_zero rho cpu cs src z :
  holds rho cs -> cbyte rho cpu (ptr_add src z) = 0 ->
  can_zero cpu cs src z = true.
Proof.
  unfold cbyte, can_zero. intros Hcs E.
  destruct (read_int cpu (ptr_add src z)) as [b|e]; simpl in *.
  - apply Z.eqb_eq; exact E.
  - apply (can_be_true_complete cs _ rho Hcs).
    cbn [beval]. rewrite eval_cast_zero. apply Z.eqb_eq; exact E.
Qed.



Lemma maybe_empty_first_null : first_null (cpu maybe_empty) [] 200 1.
Proof.
  split; [reflexivity|]. intros m Hm.
  destruct m as [|m]; [vm_compute; reflexivity|lia].
Defined.



(** Why the amended C2 asks for ranges that do not overlap: copying
    [5, x, 0] two bytes further overwrites the source terminator before
    it is scanned, and when [x] is 1 none of the destination bytes at
    offsets 0, 1 and 2 is zero. *)
Lemma strcpy_overlap_loses_terminator :
  first_null (cpu onto_itself) [] 100 2 /\
  fst (strcpy 6 onto_itself (VInt 102) (VInt 100)) = Return (VInt 102) /\
  forall k, (k <= 2)%nat ->
    cbyte (fun _ _ => 1)
          (cpu (snd (strcpy 6 onto_itself (VInt 102) (VInt 100))))
          (ptr_add 102 k) <> 0.
Proof.
  split.
  - split; [reflexivity|]. intros m Hm.
    destruct m as [|[|m]]; [vm_compute; reflexivity|vm_compute; reflexivity|lia].
  - split; [vm_compute; reflexivity|].
    intros k Hk.
    destruct k as [|[|[|k]]]; [| | |lia]; vm_compute; discriminate.
Qed.

(** * Further properties of the code *)

Import Tags Sem2.

(** ** The variadic tag *)

(** A model marked with [variadic] is reported variadic by
    [isvariadic], a model without the attribute is reported [False],
    and marking leaves the body and every other attribute as they
    were. *)
Theorem variadic_marks func :
  isvariadic (variadic func) = PyBool true /\
  (attrs func VARIADIC_FUNC_ATTR = None -> isvariadic func = PyBool false) /\
  body (variadic func) = body func /\
  (forall name default,
      name <> VARIADIC_FUNC_ATTR ->
      getattr (variadic func) name default = getattr func name default) /\
  (forall name, attrs (variadic (variadic func)) name = attrs (variadic func) name).
Proof.
  unfold isvariadic, variadic, getattr, setattr; cbn [attrs body].
  split; [rewrite String.eqb_refl; reflexivity|].
  split; [intros ->; reflexivity|]. split; [reflexivity|]. split.
  - intros name default Hne.
    apply String.eqb_neq in Hne. rewrite Hne. reflexivity.
  - intros name. destruct (String.eqb name VARIADIC_FUNC_ATTR); reflexivity.
Qed.

Lemma variadic_marks_witness :
  isvariadic (variadic (plain 0)) = PyBool true /\
  isvariadic (plain 0) = PyBool false.
Proof.
  destruct (variadic_marks (plain 0)) as (H1 & H2 & _).
  split; [exact H1|]. apply H2. reflexivity.
Defined.

(** ** Soundness of the classifiers *)

(** Under every assignment that satisfies the constraints, a byte that
    [is_NULL] accepts is zero and a byte that [not_NULL] accepts is not
    zero. *)
Theorem classifier_sound rho cs byte :
  holds rho cs ->
  (is_NULL byte cs = true -> eval_val rho byte = 0) /\
  (not_NULL byte cs = true -> eval_val rho byte <> 0).
Proof.
  intros Hcs. split.
  - apply is_NULL_eval, Hcs.
  - apply not_NULL_eval, Hcs.
Qed.

Lemma classifier_sound_witness :
  holds (fun _ _ => 7) [Equal x (BitVecConstant 8 7)] /\
  eval_val (fun _ _ => 7) (VSym x) <> 0.
Proof.
  assert (H : holds (fun _ _ => 7) [Equal x (BitVecConstant 8 7)]).
  { constructor; [reflexivity|constructor]. }
  split; [exact H|].
  apply (proj2 (classifier_sound (fun _ _ => 7)
                  [Equal x (BitVecConstant 8 7)] (VSym x) H)).
  vm_compute. reflexivity.
Defined.

(** ** What [_find_zeros] records *)

(** [_find_zeros] returns exactly when [_find_zero] does, and then its
    list holds exactly the offsets, up to the one [_find_zero] returns,
    whose byte is the integer 0 or an expression for which "byte == 0"
    is feasible. *)
Theorem find_zeros_members fuel cpu cs ptr :
  (_find_zeros fuel cpu cs ptr = None <-> _find_zero fuel cpu cs ptr = None) /\
  forall zs n,
    _find_zeros fuel cpu cs ptr = Some zs ->
    _find_zero fuel cpu cs ptr = Some n ->
    forall k, In k zs <-> (k <= n)%nat /\ can_zero cpu cs ptr k = true.
Proof.
  rewrite find_zeros_spec. split.
  - destruct (_find_zero fuel cpu cs ptr); split; congruence.
  - intros zs n Hzs Hn k. rewrite Hn in Hzs.
    assert (zs = filter (can_zero cpu cs ptr) (seq 0 (S n))) as -> by congruence.
    rewrite filter_In, in_seq. split; intros [H1 H2]; (split; [lia|exact H2]).
Qed.

Lemma find_zeros_members_witness :
  In 0%nat [0; 1]%nat <->
  (0 <= 1)%nat /\ can_zero one_symbolic [] 100 0 = true.
Proof.
  apply (proj2 (find_zeros_members 5 one_symbolic [] 100) [0; 1]%nat 1%nat);
    vm_compute; reflexivity.
Defined.

(** ** The value of [strlen] *)

Lemma least_zero (g : nat -> Z) :
  forall n, (exists z, (z < n)%nat /\ g z = 0) ->
            exists l, (l < n)%nat /\ g l = 0 /\ forall k, (k < l)%nat -> g k <> 0.
Proof.
  induction n as [|n IH]; intros (z & Hz & E); [lia|].
  destruct (bounded_zero g n) as [Hex|Hnz].
  - destruct (IH Hex) as (l & Hl & El & Hk). exists l. split; [lia|]. auto.
  - assert (z = n) as ->.
    { destruct (Nat.eq_dec z n) as [e|e]; [exact e|].
      exfalso. apply (Hnz z); [lia|exact E]. }
    exists n. split; [lia|]. split; [exact E|exact Hnz].
Qed.

Section StrlenValue.

Variables (rho : env) (cpu : Cpu) (cs : ConstraintSet) (s : Z).
Let w := address_bit_size cpu.

Lemma strlen_step_nonzero ret o :
  cbyte rho cpu (ptr_add s o) <> 0 ->
  ret_value rho w (strlen_step cpu s ret o) = ret_value rho w ret.
Proof.
  unfold strlen_step, cbyte. fold w.
  destruct (read_int cpu (ptr_add s o)) as [z|e]; cbn [issymbolic];
    [reflexivity|].
  intros Hnz.
  assert (Hnode : ret_value rho w
                    (ITEBV w (CSym (Equal e (cast e 0))) (VInt (Z.of_nat o)) ret)
                  = ret_value rho w ret).
  { rewrite ITEBV_value. cbn [beval]. rewrite eval_cast_zero.
    cbn [eval_val] in Hnz. apply Z.eqb_neq in Hnz. rewrite Hnz. reflexivity. }
  destruct e; try exact Hnode.
  cbn [eq ITEBV]. cbn [eval_val eval] in Hnz.
  replace (value =? 0) with false; [reflexivity|].
  symmetry. apply Z.eqb_neq. intros ->. apply Hnz. apply eval_cast_zero_raw.
Qed.

Lemma strlen_step_zero ret o :
  cbyte rho cpu (ptr_add s o) = 0 ->
  is_NULL (read_int cpu (ptr_add s o)) cs = false ->
  ret_value rho w (strlen_step cpu s ret o) = Z.of_nat o mod modulus w.
Proof.
  unfold strlen_step, cbyte. fold w.
  destruct (read_int cpu (ptr_add s o)) as [z|e]; cbn [issymbolic eval_val].
  - intros -> H. discriminate.
  - intros Hz Hn.
    assert (Hnode : ret_value rho w
                      (ITEBV w (CSym (Equal e (cast e 0))) (VInt (Z.of_nat o)) ret)
                    = Z.of_nat o mod modulus w).
    { rewrite ITEBV_value. cbn [beval]. rewrite eval_cast_zero, Hz. reflexivity. }
    destruct e; try exact Hnode.
    exfalso. cbn [is_NULL] in Hn. apply negb_false_iff in Hn.
    apply can_be_true_sound in Hn as (rho' & _ & Hb).
    cbn [beval eval cast width_of] in Hb. cbn [eval] in Hz.
    rewrite Hz, eval_cast_zero_raw in Hb. discriminate.
Qed.

Lemma strlen_walk_nonzero :
  forall n ret,
    (forall k, (k < n)%nat -> cbyte rho cpu (ptr_add s k) <> 0) ->
    ret_value rho w (fold_left (strlen_step cpu s) (down_from n) ret) =
    ret_value rho w ret.
Proof.
  induction n as [|n IH]; intros ret H; [reflexivity|].
  rewrite down_from_S. cbn [fold_left].
  rewrite IH by (intros k Hk; apply H; lia).
  apply strlen_step_nonzero, H. lia.
Qed.

(** No byte before offset [N] is definitely null. *)
Variable N : nat.
Hypothesis not_null_before :
  forall k, (k < N)%nat -> is_NULL (read_int cpu (ptr_add s k)) cs = false.

Lemma strlen_walk_first_zero :
  forall n ret len,
    (n <= N)%nat -> (len < n)%nat ->
    cbyte rho cpu (ptr_add s len) = 0 ->
    (forall k, (k < len)%nat -> cbyte rho cpu (ptr_add s k) <> 0) ->
    ret_value rho w (fold_left (strlen_step cpu s) (down_from n) ret) =
    Z.of_nat len mod modulus w.
Proof.
  induction n as [|n IH]; intros ret len HN Hlen Hz Hnz; [lia|].
  rewrite down_from_S. cbn [fold_left].
  destruct (Nat.eq_dec len n) as [->|Hne].
  - rewrite strlen_walk_nonzero by exact Hnz.
    apply strlen_step_zero; [exact Hz|]. apply not_null_before. lia.
  - apply IH; [lia|lia|exact Hz|exact Hnz].
Qed.

End StrlenValue.

Lemma strlen_value_aux fuel st s n rho :
  holds rho (constraints st) ->
  first_null (cpu st) (constraints st) s n ->
  (n < fuel)%nat ->
  exists v len,
    strlen fuel st (VInt s) = (Return v, st) /\
    (len <= n)%nat /\
    length_under rho (cpu st) s len /\
    ret_value rho (address_bit_size (cpu st)) v =
    Z.of_nat len mod modulus (address_bit_size (cpu st)).
Proof.
  intros Hcs [Hz Hnz] Hf.
  unfold strlen.
  rewrite (proj2 (find_zero_iff _ _ s fuel n) (conj (conj Hz Hnz) Hf)).
  eexists.
  destruct (bounded_zero (fun k => cbyte rho (cpu st) (ptr_add s k)) n)
    as [Hex|Hall].
  - destruct (least_zero _ n Hex) as (len & Hlen & El & Hk). cbv beta in *.
    exists len. split; [reflexivity|]. split; [lia|]. split; [split; assumption|].
    apply (strlen_walk_first_zero rho (cpu st) (constraints st) s n Hnz); auto.
  - exists n. split; [reflexivity|]. split; [lia|]. split.
    + split; [|exact Hall]. apply (is_NULL_eval rho _ _ Hcs Hz).
    + rewrite strlen_walk_nonzero by exact Hall. reflexivity.
Qed.

(** Under every assignment that satisfies the constraints, the value
    [strlen] returns is, at pointer width, the true length of the string
    under that assignment: the offset of the first byte that is zero
    there, which is at most the offset of the definite terminator. *)
Theorem strlen_value fuel st s n rho :
  holds rho (constraints st) ->
  first_null (cpu st) (constraints st) s n ->
  (n < fuel)%nat ->
  exists v len,
    strlen fuel st (VInt s) = (Return v, st) /\
    (len <= n)%nat /\
    length_under rho (cpu st) s len /\
    ret_value rho (address_bit_size (cpu st)) v =
    Z.of_nat len mod modulus (address_bit_size (cpu st)).
Proof. exact (strlen_value_aux fuel st s n rho). Qed.

Lemma strlen_value_witness :
  exists v len,
    strlen 5 {| cpu := one_symbolic; constraints := [] |} (VInt 100)
    = (Return v, {| cpu := one_symbolic; constraints := [] |}) /\
    (len <= 1)%nat /\
    length_under (fun _ _ => 0) one_symbolic 100 len /\
    ret_value (fun _ _ => 0) 64 v = Z.of_nat len mod modulus 64.
Proof.
  apply (strlen_value 5 {| cpu := one_symbolic; constraints := [] |} 100 1
                      (fun _ _ => 0)).
  - constructor.
  - split; [reflexivity|]. intros m Hm.
    destruct m as [|m]; [vm_compute; reflexivity|lia].
  - lia.
Defined.

(** ** The value of [strcmp] *)

Section StrcmpValue.

Variables (rho : env) (cpu : Cpu) (s1 s2 : Z).
Hypothesis Hwf : wf_cpu cpu.

Lemma strcmp_step_value acc o :
  acc_value rho (address_bit_size cpu) (strcmp_step cpu s1 s2 acc o) =
  if cbyte rho cpu (ptr_add s1 o) =? cbyte rho cpu (ptr_add s2 o)
  then acc_value rho (address_bit_size cpu) acc
  else (cbyte rho cpu (ptr_add s1 o) - cbyte rho cpu (ptr_add s2 o))
         mod modulus (address_bit_size cpu).
Proof.
  pose proof Hwf as [Hw Hmem].
  set (w := address_bit_size cpu) in *.
  pose proof (ZEXTEND_widened _ w Hw (Hmem (ptr_add s1 o))) as W1.
  pose proof (ZEXTEND_widened _ w Hw (Hmem (ptr_add s2 o))) as W2.
  fold (read_int cpu (ptr_add s1 o)) in W1.
  fold (read_int cpu (ptr_add s2 o)) in W2.
  pose proof (sub_value w _ _ _ _ rho Hw W1 W2) as Hsub.
  assert (Hz : 0 mod modulus w = 0)
    by (apply Z.mod_0_l; pose proof (modulus_pos w); lia).
  unfold cbyte, strcmp_step. fold w.
  set (x1 := eval_val rho (read_int cpu (ptr_add s1 o))) in *.
  set (x2 := eval_val rho (read_int cpu (ptr_add s2 o))) in *.
  destruct (issymbolic (ZEXTEND (read_int cpu (ptr_add s1 o)) w)
            || issymbolic (ZEXTEND (read_int cpu (ptr_add s2 o)) w)) eqn:Es.
  - destruct acc as [r|]; [destruct (is_zero_int r) eqn:Ez|].
    + destruct r as [z|]; [|discriminate]. apply Z.eqb_eq in Ez; subst z.
      cbn [acc_value]. rewrite Hsub.
      destruct (Z.eqb_spec x1 x2) as [E|E]; [|reflexivity].
      rewrite E, Z.sub_diag. unfold ret_value. reflexivity.
    + destruct (ne_value w _ _ _ _ Hw W1 W2 Es) as [c [-> Hc]].
      cbn [acc_value]. rewrite ITEBV_value, Hc, Hsub. fold x1 x2.
      destruct (x1 =? x2); reflexivity.
    + cbn [acc_value]. rewrite Hsub.
      destruct (Z.eqb_spec x1 x2) as [E|E]; [|reflexivity].
      rewrite E, Z.sub_diag. exact Hz.
  - apply orb_false_iff in Es as [E1 E2].
    destruct W1 as [z1 B1 Hz1|]; [|discriminate].
    destruct W2 as [z2 B2 Hz2|]; [|discriminate].
    subst x1 x2. rewrite B1, B2. cbn [ne eval_val].
    destruct (Z.eqb_spec z1 z2) as [E|E]; cbn [negb].
    + destruct acc as [r|]; cbn [acc_value]; [reflexivity|].
      unfold ret_value. cbn [eval_val]. exact Hz.
    + reflexivity.
Qed.

Lemma strcmp_walk_agree :
  forall n acc,
    (forall j, (j < n)%nat -> agree_at rho cpu s1 s2 j) ->
    acc_value rho (address_bit_size cpu)
              (fold_left (strcmp_step cpu s1 s2) (down_from n) acc) =
    acc_value rho (address_bit_size cpu) acc.
Proof.
  induction n as [|n IH]; intros acc H; [reflexivity|].
  rewrite down_from_S. cbn [fold_left].
  rewrite IH by (intros j Hj; apply H; lia).
  rewrite strcmp_step_value. rewrite (H n) by lia.
  rewrite Z.eqb_refl. reflexivity.
Qed.

Lemma strcmp_walk_first_difference k M :
  (k <= M)%nat -> ~ agree_at rho cpu s1 s2 k ->
  (forall j, (j < k)%nat -> agree_at rho cpu s1 s2 j) ->
  acc_value rho (address_bit_size cpu)
            (fold_left (strcmp_step cpu s1 s2) (down_from (S M)) None) =
  (cbyte rho cpu (ptr_add s1 k) - cbyte rho cpu (ptr_add s2 k))
    mod modulus (address_bit_size cpu).
Proof.
  intros Hk Hne Heq.
  rewrite (down_from_split k M Hk), fold_left_app. cbn [fold_left].
  rewrite strcmp_walk_agree by exact Heq.
  rewrite strcmp_step_value. unfold agree_at in Hne.
  apply Z.eqb_neq in Hne. rewrite Hne. reflexivity.
Qed.

Lemma strcmp_walk_all_agree M :
  (forall j, (j <= M)%nat -> agree_at rho cpu s1 s2 j) ->
  acc_value rho (address_bit_size cpu)
            (fold_left (strcmp_step cpu s1 s2) (down_from (S M)) None) = 0.
Proof.
  intros H. rewrite strcmp_walk_agree; [reflexivity|].
  intros j Hj. apply H. lia.
Qed.

End StrcmpValue.

Lemma strcmp_returns fuel st s1 s2 n1 n2 :
  first_null (cpu st) (constraints st) s1 n1 ->
  first_null (cpu st) (constraints st) s2 n2 ->
  (n1 < fuel)%nat -> (n2 < fuel)%nat ->
  exists v,
    strcmp fuel st (VInt s1) (VInt s2) = (Return (Some v), st) /\
    fold_left (strcmp_step (cpu st) s1 s2) (down_from (S (Nat.min n1 n2))) None
    = Some v.
Proof.
  intros H1 H2 F1 F2. rewrite (strcmp_runs fuel st s1 s2 n1 n2 H1 H2 F1 F2).
  destruct (strcmp_walk_some (cpu st) s1 s2 (S (Nat.min n1 n2)) None)
    as [v Hv]; [left; lia|].
  exists v. rewrite Hv. auto.
Qed.

(** On a well-formed byte memory, under every assignment the value
    [strcmp] returns is, at pointer width, the difference of the two
    bytes at the first offset, up to the smaller definite terminator
    offset, where the strings differ, and 0 when they differ at none of
    these offsets. *)
Theorem strcmp_value fuel st s1 s2 n1 n2 :
  wf_cpu (cpu st) ->
  first_null (cpu st) (constraints st) s1 n1 ->
  first_null (cpu st) (constraints st) s2 n2 ->
  (n1 < fuel)%nat -> (n2 < fuel)%nat ->
  exists v,
    strcmp fuel st (VInt s1) (VInt s2) = (Return (Some v), st) /\
    forall rho,
      (forall k, (k <= Nat.min n1 n2)%nat ->
         ~ agree_at rho (cpu st) s1 s2 k ->
         (forall j, (j < k)%nat -> agree_at rho (cpu st) s1 s2 j) ->
         ret_value rho (address_bit_size (cpu st)) v =
         (cbyte rho (cpu st) (ptr_add s1 k) - cbyte rho (cpu st) (ptr_add s2 k))
           mod modulus (address_bit_size (cpu st))) /\
      ((forall j, (j <= Nat.min n1 n2)%nat -> agree_at rho (cpu st) s1 s2 j) ->
       ret_value rho (address_bit_size (cpu st)) v = 0).
Proof.
  intros Hwf H1 H2 F1 F2.
  destruct (strcmp_returns fuel st s1 s2 n1 n2 H1 H2 F1 F2) as (v & E & Hv).
  exists v. split; [exact E|]. intros rho. split.
  - intros k Hk Hne Heq.
    pose proof (strcmp_walk_first_difference rho (cpu st) s1 s2 Hwf k
                  (Nat.min n1 n2) Hk Hne Heq) as K.
    rewrite Hv in K. exact K.
  - intros Heq.
    pose proof (strcmp_walk_all_agree rho (cpu st) s1 s2 Hwf
                  (Nat.min n1 n2) Heq) as K.
    rewrite Hv in K. exact K.
Qed.

Lemma strcmp_value_witness :
  exists v,
    strcmp 5 abc_abd (VInt 100) (VInt 200) = (Return (Some v), abc_abd) /\
    ret_value (fun _ _ => 0) 64 v = (99 - 100) mod modulus 64.
Proof.
  destruct (strcmp_value 5 abc_abd 100 200 3 3 abc_abd_wf
              (proj1 abc_abd_first_null) (proj2 abc_abd_first_null)
              ltac:(lia) ltac:(lia)) as (v & E & H).
  exists v. split; [exact E|].
  apply (proj1 (H (fun _ _ => 0)) 2%nat).
  - simpl. lia.
  - vm_compute. discriminate.
  - intros j Hj. destruct j as [|[|j]]; [reflexivity|reflexivity|lia].
Defined.

(** On a well-formed byte memory, under every assignment that satisfies
    the constraints and leaves no zero byte in the first string before
    the smaller definite terminator offset, the value [strcmp] returns
    is, at pointer width, what the reference [strcmp] returns on the
    strings read under that assignment. *)
Theorem strcmp_matches_reference fuel st s1 s2 n1 n2 rho :
  wf_cpu (cpu st) ->
  first_null (cpu st) (constraints st) s1 n1 ->
  first_null (cpu st) (constraints st) s2 n2 ->
  (n1 < fuel)%nat -> (n2 < fuel)%nat ->
  holds rho (constraints st) ->
  (forall j, (j < Nat.min n1 n2)%nat -> cbyte rho (cpu st) (ptr_add s1 j) <> 0) ->
  exists v r,
    strcmp fuel st (VInt s1) (VInt s2) = (Return (Some v), st) /\
    ref_strcmp fuel (cbyte rho (cpu st)) s1 s2 = Some r /\
    ret_value rho (address_bit_size (cpu st)) v =
    r mod modulus (address_bit_size (cpu st)).
Proof.
  intros Hwf H1 H2 F1 F2 Hcs Hnz.
  destruct (strcmp_returns fuel st s1 s2 n1 n2 H1 H2 F1 F2) as (v & E & Hv).
  exists v. set (M := Nat.min n1 n2) in *.
  destruct (first_difference (fun j => cbyte rho (cpu st) (ptr_add s1 j))
                             (fun j => cbyte rho (cpu st) (ptr_add s2 j)) M)
    as [Heq|(k & Hk & Hne & Heq)]; cbv beta in *.
  - exists 0. split; [exact E|]. split.
    + assert (Z1 : cbyte rho (cpu st) (ptr_add s1 M) = 0).
      { destruct (Nat.min_dec n1 n2) as [e|e]; fold M in e; rewrite e.
        - apply (is_NULL_eval rho _ _ Hcs (proj1 H1)).
        - rewrite <- e at 1. rewrite Heq by lia. rewrite e.
          apply (is_NULL_eval rho _ _ Hcs (proj1 H2)). }
      apply (ref_strcmp_equal _ M); [unfold M; lia| |exact Z1|].
      * intros j Hj. split; [apply Heq; lia|apply Hnz, Hj].
      * rewrite <- Heq by lia. exact Z1.
    + pose proof (strcmp_walk_all_agree rho (cpu st) s1 s2 Hwf M Heq) as K.
      rewrite Hv in K. cbn [acc_value] in K. rewrite K.
      symmetry. apply Z.mod_0_l.
      pose proof (modulus_pos (address_bit_size (cpu st))); lia.
  - eexists. split; [exact E|]. split.
    + apply (ref_strcmp_mismatch _ k); [unfold M in Hk; lia| |exact Hne].
      intros j Hj. split; [apply Heq, Hj|apply Hnz; lia].
    + pose proof (strcmp_walk_first_difference rho (cpu st) s1 s2 Hwf k M
                    Hk Hne Heq) as K.
      rewrite Hv in K. exact K.
Qed.

Lemma abd_no_early_zero rho j :
  (j < 3)%nat -> cbyte rho (cpu abc_abd) (ptr_add 100 j) <> 0.
Proof.
  intros Hj. destruct j as [|[|[|j]]]; [| | |lia]; vm_compute; discriminate.
Defined.

Lemma strcmp_matches_reference_witness :
  exists v r,
    strcmp 5 abc_abd (VInt 100) (VInt 200) = (Return (Some v), abc_abd) /\
    ref_strcmp 5 (cbyte (fun _ _ => 0) (cpu abc_abd)) 100 200 = Some r /\
    ret_value (fun _ _ => 0) 64 v = r mod modulus 64.
Proof.
  apply (strcmp_matches_reference 5 abc_abd 100 200 3 3 (fun _ _ => 0)
           abc_abd_wf (proj1 abc_abd_first_null) (proj2 abc_abd_first_null)
           ltac:(lia) ltac:(lia)).
  - constructor.
  - intros j Hj. apply abd_no_early_zero. simpl in Hj. exact Hj.
Defined.

(** On a well-formed byte memory, under every assignment the values of
    [strcmp(s1, s2)] and [strcmp(s2, s1)] are opposite at pointer width,
    and a string compared with itself gives a value that is 0. *)
Theorem strcmp_antisymmetric fuel st s1 s2 n1 n2 :
  wf_cpu (cpu st) ->
  first_null (cpu st) (constraints st) s1 n1 ->
  first_null (cpu st) (constraints st) s2 n2 ->
  (n1 < fuel)%nat -> (n2 < fuel)%nat ->
  exists v12 v21 v11,
    strcmp fuel st (VInt s1) (VInt s2) = (Return (Some v12), st) /\
    strcmp fuel st (VInt s2) (VInt s1) = (Return (Some v21), st) /\
    strcmp fuel st (VInt s1) (VInt s1) = (Return (Some v11), st) /\
    forall rho,
      (ret_value rho (address_bit_size (cpu st)) v12
       + ret_value rho (address_bit_size (cpu st)) v21)
        mod modulus (address_bit_size (cpu st)) = 0 /\
      ret_value rho (address_bit_size (cpu st)) v11 = 0.
Proof.
  intros Hwf H1 H2 F1 F2.
  destruct (strcmp_returns fuel st s1 s2 n1 n2 H1 H2 F1 F2) as (v12 & E12 & Hv12).
  destruct (strcmp_returns fuel st s2 s1 n2 n1 H2 H1 F2 F1) as (v21 & E21 & Hv21).
  destruct (strcmp_returns fuel st s1 s1 n1 n1 H1 H1 F1 F1) as (v11 & E11 & Hv11).
  exists v12, v21, v11. split; [exact E12|]. split; [exact E21|].
  split; [exact E11|]. intros rho.
  set (w := address_bit_size (cpu st)).
  assert (Hm : 0 < modulus w) by apply modulus_pos.
  split.
  - rewrite (Nat.min_comm n2 n1) in Hv21. set (M := Nat.min n1 n2) in *.
    destruct (first_difference (fun j => cbyte rho (cpu st) (ptr_add s1 j))
                               (fun j => cbyte rho (cpu st) (ptr_add s2 j)) M)
      as [Heq|(k & Hk & Hne & Heq)]; cbv beta in *.
    + pose proof (strcmp_walk_all_agree rho (cpu st) s1 s2 Hwf M Heq) as K1.
      pose proof (strcmp_walk_all_agree rho (cpu st) s2 s1 Hwf M
                    (fun j Hj => eq_sym (Heq j Hj))) as K2.
      rewrite Hv12 in K1. rewrite Hv21 in K2. cbn [acc_value] in K1, K2.
      fold w in K1, K2. rewrite K1, K2. apply Z.mod_0_l. lia.
    + pose proof (strcmp_walk_first_difference rho (cpu st) s1 s2 Hwf k M
                    Hk Hne Heq) as K1.
      pose proof (strcmp_walk_first_difference rho (cpu st) s2 s1 Hwf k M
                    Hk (fun e => Hne (eq_sym e))
                    (fun j Hj => eq_sym (Heq j Hj))) as K2.
      rewrite Hv12 in K1. rewrite Hv21 in K2. cbn [acc_value] in K1, K2.
      fold w in K1, K2. rewrite K1, K2.
      rewrite <- Z.add_mod by lia.
      replace (cbyte rho (cpu st) (ptr_add s1 k) - cbyte rho (cpu st) (ptr_add s2 k)
               + (cbyte rho (cpu st) (ptr_add s2 k)
                  - cbyte rho (cpu st) (ptr_add s1 k))) with 0 by lia.
      apply Z.mod_0_l. lia.
  - rewrite Nat.min_id in Hv11.
    pose proof (strcmp_walk_all_agree rho (cpu st) s1 s1 Hwf n1
                  (fun j _ => eq_refl)) as K.
    rewrite Hv11 in K. exact K.
Qed.

Lemma strcmp_antisymmetric_witness :
  exists v12 v21 v11,
    strcmp 5 abc_abd (VInt 100) (VInt 200) = (Return (Some v12), abc_abd) /\
    strcmp 5 abc_abd (VInt 200) (VInt 100) = (Return (Some v21), abc_abd) /\
    strcmp 5 abc_abd (VInt 100) (VInt 100) = (Return (Some v11), abc_abd) /\
    forall rho,
      (ret_value rho 64 v12 + ret_value rho 64 v21) mod modulus 64 = 0 /\
      ret_value rho 64 v11 = 0.
Proof.
  apply (strcmp_antisymmetric 5 abc_abd 100 200 3 3 abc_abd_wf
           (proj1 abc_abd_first_null) (proj2 abc_abd_first_null)); lia.
Defined.

(** ** Width coherence of what the models build *)

Lemma byte_ok_val_ok b : byte_ok b -> val_ok 8 b.
Proof. destruct b; simpl; auto. Qed.

Lemma ZEXTEND_ok w b : (8 <= w)%nat -> byte_ok b -> val_ok w (ZEXTEND b w).
Proof.
  intros Hw Hb. destruct b as [z|e]; [exact I|].
  destruct Hb as [He Hwf]. cbn [ZEXTEND]. rewrite He.
  destruct (8 <? w)%nat eqn:E; cbn [val_ok width_of wf_expr].
  - split; [reflexivity|]. rewrite Hwf, He. cbn [andb].
    apply Nat.leb_le. exact Hw.
  - apply Nat.ltb_ge in E. split; [lia|exact Hwf].
Qed.

Lemma sub_ok w a b : val_ok w a -> val_ok w b -> val_ok w (sub a b).
Proof.
  destruct a as [x|e], b as [y|f]; simpl; auto.
  - intros _ [Hw Hf]. split; [exact Hw|]. rewrite Hf, Nat.eqb_refl. reflexivity.
  - intros [Hw He] _. split; [exact Hw|]. rewrite He, Nat.eqb_refl. reflexivity.
  - intros [Hw He] [Hw' Hf]. split; [exact Hw|].
    rewrite He, Hf, Hw, Hw', Nat.eqb_refl. reflexivity.
Qed.

Lemma ne_ok w a b : val_ok w a -> val_ok w b -> cond_ok (ne a b).
Proof.
  destruct a as [x|e], b as [y|f]; simpl; auto.
  - intros _ [Hw Hf]. rewrite Hf, Nat.eqb_refl. reflexivity.
  - intros [Hw He] _. rewrite He, Nat.eqb_refl. reflexivity.
  - intros [Hw He] [Hw' Hf]. rewrite He, Hf, Hw, Hw', Nat.eqb_refl. reflexivity.
Qed.

Lemma equal_cast_ok e y :
  wf_expr e = true -> wf_bexpr (Equal e (cast e y)) = true.
Proof.
  intros He. cbn [wf_bexpr cast wf_expr width_of]. rewrite He, Nat.eqb_refl.
  reflexivity.
Qed.

Lemma eq_ok w a b : val_ok w a -> val_ok w b -> cond_ok (eq a b).
Proof.
  intros Ha Hb. destruct a as [x|e], b as [y|f].
  - exact I.
  - destruct Hb as [_ Hf].
    destruct f; try exact I; cbn [eq cond_ok]; apply equal_cast_ok, Hf.
  - destruct Ha as [_ He].
    destruct e; try exact I; cbn [eq cond_ok]; apply equal_cast_ok, He.
  - destruct Ha as [Hw He], Hb as [Hw' Hf].
    assert (K : wf_bexpr (Equal e f) = true).
    { cbn [wf_bexpr]. rewrite He, Hf, Hw, Hw', Nat.eqb_refl. reflexivity. }
    destruct e; exact K.
Qed.

Lemma to_expr_ok w v :
  val_ok w v -> width_of (to_expr w v) = w /\ wf_expr (to_expr w v) = true.
Proof. destruct v; simpl; auto. Qed.

Lemma ITEBV_ok w c t f :
  cond_ok c -> val_ok w t -> val_ok w f -> val_ok w (ITEBV w c t f).
Proof.
  intros Hc Ht Hf. destruct c as [[|]|k]; simpl; auto.
  destruct (to_expr_ok w t Ht) as [Wt Et], (to_expr_ok w f Hf) as [Wf Ef].
  simpl in Hc. split; [exact Wt|].
  rewrite Hc, Et, Ef, Wt, Wf, Nat.eqb_refl. reflexivity.
Qed.

Lemma strlen_step_ok cpu s ret o :
  wf_cpu cpu -> val_ok (address_bit_size cpu) ret ->
  val_ok (address_bit_size cpu) (strlen_step cpu s ret o).
Proof.
  intros [Hw Hmem] Hr. unfold strlen_step.
  pose proof (Hmem (ptr_add s o)) as Hb. fold (read_int cpu (ptr_add s o)) in Hb.
  destruct (read_int cpu (ptr_add s o)) as [z|e]; cbn [issymbolic]; [exact Hr|].
  apply ITEBV_ok; [|exact I|exact Hr].
  apply (eq_ok 8); [exact Hb|exact I].
Qed.

Lemma strlen_walk_ok cpu s :
  wf_cpu cpu ->
  forall l ret, val_ok (address_bit_size cpu) ret ->
    val_ok (address_bit_size cpu) (fold_left (strlen_step cpu s) l ret).
Proof.
  intros Hwf. induction l as [|o l IH]; intros ret Hr; [exact Hr|].
  cbn [fold_left]. apply IH, strlen_step_ok; assumption.
Qed.

Lemma strcmp_step_ok cpu s1 s2 acc o :
  wf_cpu cpu ->
  (forall r, acc = Some r -> val_ok (address_bit_size cpu) r) ->
  forall v, strcmp_step cpu s1 s2 acc o = Some v ->
            val_ok (address_bit_size cpu) v.
Proof.
  intros [Hw Hmem] Hacc v. unfold strcmp_step.
  set (w := address_bit_size cpu) in *.
  pose proof (ZEXTEND_ok w _ Hw (Hmem (ptr_add s1 o))) as O1.
  pose proof (ZEXTEND_ok w _ Hw (Hmem (ptr_add s2 o))) as O2.
  fold (read_int cpu (ptr_add s1 o)) in O1.
  fold (read_int cpu (ptr_add s2 o)) in O2.
  pose proof (sub_ok w _ _ O1 O2) as Os.
  destruct (issymbolic _ || issymbolic _).
  - destruct acc as [r|]; [destruct (is_zero_int r)|];
      intros H; injection H as <-; try exact Os.
    apply ITEBV_ok; [apply (ne_ok w); assumption|exact Os|].
    apply Hacc. reflexivity.
  - destruct (ne _ _) as [[|]|]; [|destruct acc..];
      intros H; injection H as <-; try exact Os; try exact I;
      apply Hacc; reflexivity.
Qed.

Lemma strcmp_walk_ok cpu s1 s2 :
  wf_cpu cpu ->
  forall l acc,
    (forall r, acc = Some r -> val_ok (address_bit_size cpu) r) ->
    forall v, fold_left (strcmp_step cpu s1 s2) l acc = Some v ->
              val_ok (address_bit_size cpu) v.
Proof.
  intros Hwf. induction l as [|o l IH]; intros acc Hacc v H.
  - apply Hacc. exact H.
  - cbn [fold_left] in H. apply (IH _ (strcmp_step_ok cpu s1 s2 acc o Hwf Hacc) v H).
Qed.

(** On a well-formed byte memory, whatever [strlen] and [strcmp]
    return is an integer or a width-coherent expression of pointer
    width: no conditional, subtraction or comparison in it joins
    operands of different widths. *)
Theorem results_width_coherent fuel st a b :
  wf_cpu (cpu st) ->
  (forall v st', strlen fuel st a = (Return v, st') ->
                 val_ok (address_bit_size (cpu st)) v) /\
  (forall v st', strcmp fuel st a b = (Return (Some v), st') ->
                 val_ok (address_bit_size (cpu st)) v).
Proof.
  intros Hwf. split; intros v st'.
  - unfold strlen. destruct a as [s|]; [|discriminate].
    destruct (_find_zero fuel (cpu st) (constraints st) s); [|discriminate].
    intros H. injection H as <- _. apply strlen_walk_ok; [exact Hwf|exact I].
  - unfold strcmp. destruct a as [s1|]; [|discriminate].
    destruct b as [s2|]; [|discriminate].
    destruct (_find_zero fuel (cpu st) (constraints st) s1); [|discriminate].
    destruct (_find_zero fuel (cpu st) (constraints st) s2); [|discriminate].
    intros H. injection H as H _.
    eapply (strcmp_walk_ok (cpu st) s1 s2 Hwf); [|exact H]. discriminate.
Qed.

Lemma twins_wf : wf_cpu (cpu twins).
Proof.
  split; [simpl; lia|]. simpl.
  apply layout_byte_ok;
    [repeat constructor; simpl; try lia; split; reflexivity|].
  apply layout_byte_ok;
    [repeat constructor; simpl; try lia; split; reflexivity|].
  exact zeroes_byte_ok.
Defined.

Lemma results_width_coherent_witness :
  exists v,
    strcmp 5 twins (VInt 100) (VInt 200) = (Return (Some v), twins) /\
    val_ok 64 v.
Proof.
  eexists. split; [vm_compute; reflexivity|].
  apply (proj2 (results_width_coherent 5 twins (VInt 100) (VInt 200) twins_wf)
               _ twins).
  vm_compute. reflexivity.
Defined.

(** ** [strcpy] keeps memory made of bytes *)

Lemma as_byte_ok v : val_ok 8 v -> byte_ok (as_byte v).
Proof.
  destruct v as [z|e]; simpl; [intros _|auto].
  change 255 with (Z.ones 8). rewrite Z.land_ones by lia.
  apply Z.mod_pos_bound. reflexivity.
Qed.

Lemma write_int_wf cpu a v :
  wf_cpu cpu -> val_ok 8 v -> wf_cpu (write_int cpu a v).
Proof.
  intros [Hw Hmem] Hv. split; [exact Hw|].
  intros a'. rewrite write_int_memory.
  destruct (a' =? a); [apply as_byte_ok, Hv|apply Hmem].
Qed.

Lemma read_int_ok cpu a : wf_cpu cpu -> val_ok 8 (read_int cpu a).
Proof. intros [_ Hmem]. apply byte_ok_val_ok, Hmem. Qed.

Lemma strcpy_copy_wf cs :
  forall fuel cpu dst src c cpu' dst' src' c',
    wf_cpu cpu -> val_ok 8 c ->
    strcpy_copy fuel cpu cs dst src c = Some (cpu', dst', src', c') ->
    wf_cpu cpu'.
Proof.
  induction fuel as [|fuel IH]; intros cpu dst src c cpu' dst' src' c' Hwf Hc H;
    [discriminate|].
  cbn [strcpy_copy] in H. destruct (not_NULL c cs).
  - apply IH in H; [exact H|apply write_int_wf; assumption|].
    apply read_int_ok, write_int_wf; assumption.
  - injection H as <- _ _ _. exact Hwf.
Qed.

Lemma strcpy_copy_memory_wf cs :
  forall fuel cpu dst src c,
    wf_cpu cpu -> val_ok 8 c ->
    wf_cpu (strcpy_copy_memory fuel cpu cs dst src c).
Proof.
  induction fuel as [|fuel IH]; intros cpu dst src c Hwf Hc; [exact Hwf|].
  cbn [strcpy_copy_memory]. destruct (not_NULL c cs); [|exact Hwf].
  apply IH; [apply write_int_wf; assumption|].
  apply read_int_ok, write_int_wf; assumption.
Qed.

Lemma byte_ne_zero_ok cpu a : wf_cpu cpu -> cond_ok (ne (read_int cpu a) (VInt 0)).
Proof. intros Hwf. apply (ne_ok 8); [apply read_int_ok, Hwf|exact I]. Qed.

Lemma strcpy_wrap_ok cpu src dv zs sv :
  wf_cpu cpu -> val_ok 8 dv -> val_ok 8 sv ->
  val_ok 8 (strcpy_wrap cpu src dv zs sv).
Proof.
  intros Hwf Hd. unfold strcpy_wrap. revert sv.
  induction (rev zs) as [|z l IH]; intros sv Hs; [exact Hs|].
  cbn [fold_left]. apply IH.
  apply ITEBV_ok; [apply byte_ne_zero_ok, Hwf|exact Hs|exact Hd].
Qed.

Lemma strcpy_tail_step_wf src dst acc o :
  wf_cpu (fst acc) -> wf_cpu (fst (strcpy_tail_step src dst acc o)).
Proof.
  destruct acc as [cpu [zeros|]]; cbn [fst]; intros Hwf; [|exact Hwf].
  unfold strcpy_tail_step.
  destruct (last_item zeros) as [z|]; [|exact Hwf].
  destruct (z =? o)%nat; cbn [fst]; apply write_int_wf; try exact Hwf;
    apply strcpy_wrap_ok; try exact Hwf; try (apply read_int_ok, Hwf).
  apply ITEBV_ok; [apply byte_ne_zero_ok, Hwf|apply read_int_ok, Hwf|exact I].
Qed.

Lemma strcpy_tail_wf src dst :
  forall l acc, wf_cpu (fst acc) ->
    wf_cpu (fst (fold_left (strcpy_tail_step src dst) l acc)).
Proof.
  induction l as [|o l IH]; intros acc Hwf; [exact Hwf|].
  cbn [fold_left]. apply IH, strcpy_tail_step_wf, Hwf.
Qed.

(** [strcpy] keeps a well-formed byte memory well formed, however it
    ends: every cell it writes is an integer below 256 or a
    width-coherent expression of 8 bits. *)
Theorem strcpy_keeps_bytes fuel st dst src :
  wf_cpu (cpu st) -> wf_cpu (cpu (snd (strcpy fuel st dst src))).
Proof.
  intros Hwf. unfold strcpy.
  destruct src as [src|]; [|exact Hwf]. destruct dst as [dst|]; [|exact Hwf].
  destruct (strcpy_copy fuel (cpu st) (constraints st) dst src
                        (read_int (cpu st) src))
    as [[[[cpu1 dst1] src1] c1]|] eqn:Ec;
    [|cbn [snd with_cpu cpu];
      apply strcpy_copy_memory_wf; [exact Hwf|apply read_int_ok, Hwf]].
  apply strcpy_copy_wf in Ec; [|exact Hwf|apply read_int_ok, Hwf].
  destruct (is_NULL c1 (constraints st)).
  - cbn [snd with_cpu cpu]. apply write_int_wf; [exact Ec|exact I].
  - destruct (_find_zeros fuel cpu1 (constraints st) src1) as [zeros|];
      [|exact Ec].
    destruct (last_item zeros) as [null|]; [|exact Ec].
    pose proof (strcpy_tail_wf src1 dst1 (down_from (S null)) (cpu1, Some zeros) Ec)
      as K.
    destruct (fold_left _ _ _) as [cpu2 [l|]]; exact K.
Qed.

Lemma maybe_empty_wf : wf_cpu (cpu maybe_empty).
Proof.
  split; [simpl; lia|]. simpl.
  apply layout_byte_ok;
    [repeat constructor; simpl; try lia; split; reflexivity|].
  apply layout_byte_ok;
    [repeat constructor; simpl; try lia; split; reflexivity|].
  exact zeroes_byte_ok.
Defined.

Lemma letter_a_wf : wf_cpu (cpu letter_a).
Proof.
  split; [simpl; lia|]. simpl.
  apply layout_byte_ok; [repeat constructor; simpl; lia|].
  exact zeroes_byte_ok.
Defined.

Lemma strcpy_keeps_bytes_witness :
  wf_cpu (cpu (snd (strcpy 5 letter_a (VInt 101) (VInt 100)))).
Proof. exact (strcpy_keeps_bytes 5 letter_a (VInt 101) (VInt 100) letter_a_wf). Defined.

(** ** What [strcpy] leaves in memory *)

Lemma small_mod_256 z : 0 <= z < 256 -> z mod modulus 8 = z.
Proof. intros H. apply Z.mod_small. rewrite modulus_8. exact H. Qed.

Lemma to_expr_8_value rho v :
  in_range rho v -> eval rho (to_expr 8 v) = eval_val rho v.
Proof.
  destruct v as [z|e]; simpl; [|reflexivity]. apply small_mod_256.
Qed.

Lemma ITEBV_ne_value rho c sv dv :
  in_range rho sv -> in_range rho dv ->
  eval_val rho (ITEBV 8 (ne c (VInt 0)) sv dv) =
  if eval_val rho c =? 0 then eval_val rho dv else eval_val rho sv.
Proof.
  intros Hs Hd. destruct c as [z|e]; simpl.
  - destruct (z =? 0); reflexivity.
  - rewrite eval_cast_zero_raw.
    rewrite (to_expr_8_value rho sv Hs), (to_expr_8_value rho dv Hd).
    destruct (eval rho e =? 0); reflexivity.
Qed.

Lemma existsb_rev {A} (f : A -> bool) l : existsb f (rev l) = existsb f l.
Proof.
  induction l as [|a l IH]; [reflexivity|].
  simpl. rewrite existsb_app, IH. simpl.
  rewrite orb_false_r. apply orb_comm.
Qed.

Lemma strcpy_wrap_value rho cpu src dv zs sv :
  in_range rho sv -> in_range rho dv ->
  eval_val rho (strcpy_wrap cpu src dv zs sv) =
  if existsb (fun z => cbyte rho cpu (ptr_add src z) =? 0) zs
  then eval_val rho dv else eval_val rho sv.
Proof.
  intros Hs Hd. rewrite <- existsb_rev. unfold strcpy_wrap.
  revert sv Hs. induction (rev zs) as [|z l IH]; intros sv Hs; [reflexivity|].
  cbn [fold_left existsb].
  pose proof (ITEBV_ne_value rho (read_int cpu (ptr_add src z)) sv dv Hs Hd) as E.
  rewrite IH.
  - rewrite E. unfold cbyte.
    destruct (eval_val rho (read_int cpu (ptr_add src z)) =? 0); cbn [orb];
      [|reflexivity].
    destruct (existsb _ l); reflexivity.
  - unfold in_range. rewrite E.
    destruct (eval_val rho (read_int cpu (ptr_add src z)) =? 0); assumption.
Qed.

Lemma read_in_range rho cpu a : wf_cpu cpu -> in_range rho (read_int cpu a).
Proof. intros [_ Hmem]. apply byte_range, Hmem. Qed.

Lemma tail_value_eval rho src dst f cpu o :
  wf_cpu cpu ->
  eval_val rho (tail_value src dst f cpu o) =
  if blocked rho cpu src f o then cbyte rho cpu (ptr_add dst o)
  else cbyte rho cpu (ptr_add src o).
Proof.
  intros Hwf. unfold tail_value, blocked.
  pose proof (read_in_range rho cpu (ptr_add src o) Hwf) as Rs.
  pose proof (read_in_range rho cpu (ptr_add dst o) Hwf) as Rd.
  assert (R0 : in_range rho (VInt 0)) by (unfold in_range; simpl; lia).
  assert (Eb : eval_val rho
                 (if f o
                  then ITEBV 8 (ne (read_int cpu (ptr_add src o)) (VInt 0))
                             (read_int cpu (ptr_add src o)) (VInt 0)
                  else read_int cpu (ptr_add src o))
               = eval_val rho (read_int cpu (ptr_add src o))).
  { destruct (f o); [|reflexivity]. rewrite ITEBV_ne_value by assumption.
    destruct (Z.eqb_spec (eval_val rho (read_int cpu (ptr_add src o))) 0) as [E|E];
      [rewrite E|]; reflexivity. }
  rewrite strcpy_wrap_value; [rewrite Eb; reflexivity| |exact Rd].
  unfold in_range. rewrite Eb. exact Rs.
Qed.

Lemma tail_value_ok src dst f cpu o :
  wf_cpu cpu -> val_ok 8 (tail_value src dst f cpu o).
Proof.
  intros Hwf. unfold tail_value.
  apply strcpy_wrap_ok; [exact Hwf|apply read_int_ok, Hwf|].
  destruct (f o); [|apply read_int_ok, Hwf].
  apply ITEBV_ok; [apply byte_ne_zero_ok, Hwf|apply read_int_ok, Hwf|exact I].
Qed.

Lemma as_byte_value rho v : in_range rho v -> eval_val rho (as_byte v) = eval_val rho v.
Proof.
  destruct v as [z|e]; simpl; [|reflexivity]. intros H.
  change 255 with (Z.ones 8). rewrite Z.land_ones by lia.
  apply Z.mod_small. exact H.
Qed.

Lemma existsb_ext_in {A} (f g : A -> bool) l :
  (forall a, In a l -> f a = g a) -> existsb f l = existsb g l.
Proof.
  induction l as [|a l IH]; intros H; [reflexivity|].
  simpl. rewrite (H a) by (left; reflexivity).
  rewrite IH by (intros b Hb; apply H; right; exact Hb). reflexivity.
Qed.

Lemma blocked_ext rho cpu cpu' src f o :
  (forall z, (z < o)%nat ->
     cbyte rho cpu' (ptr_add src z) = cbyte rho cpu (ptr_add src z)) ->
  blocked rho cpu' src f o = blocked rho cpu src f o.
Proof.
  intros H. unfold blocked. apply existsb_ext_in.
  intros z Hz. apply filter_In in Hz as [Hz _]. apply in_seq in Hz.
  rewrite H by lia. reflexivity.
Qed.

Lemma blocked_iff rho cpu src f len o :
  (forall z, cbyte rho cpu (ptr_add src z) = 0 -> f z = true) ->
  length_under rho cpu src len ->
  blocked rho cpu src f o = (len <? o)%nat.
Proof.
  intros Hf [Hz Hnz]. unfold blocked.
  destruct (Nat.ltb_spec len o) as [L|G].
  - apply existsb_exists. exists len. split.
    + apply filter_In. split; [apply in_seq; lia|apply Hf, Hz].
    + apply Z.eqb_eq, Hz.
  - destruct (existsb _ _) eqn:E; [|reflexivity].
    apply existsb_exists in E as (z & Hin & E).
    apply filter_In in Hin as [Hin _]. apply in_seq in Hin.
    apply Z.eqb_eq in E. exfalso. apply (Hnz z); [lia|exact E].
Qed.

Lemma tail_run_wf src dst f :
  forall n cpu, wf_cpu cpu -> wf_cpu (tail_run src dst f n cpu).
Proof.
  induction n as [|n IH]; intros cpu Hwf; [exact Hwf|].
  rewrite tail_run_S. apply IH, write_int_wf; [exact Hwf|].
  apply tail_value_ok, Hwf.
Qed.

Lemma tail_run_value rho src dst f :
  forall n cpu,
    wf_cpu cpu ->
    (forall i j, (j < i < n)%nat -> ptr_add dst i <> ptr_add src j) ->
    forall a,
      cbyte rho (tail_run src dst f n cpu) a =
      if (dst <=? a) && (a <? dst + Z.of_nat n)
      then if blocked rho cpu src f (Z.to_nat (a - dst))
           then cbyte rho cpu a
           else cbyte rho cpu (ptr_add src (Z.to_nat (a - dst)))
      else cbyte rho cpu a.
Proof.
  induction n as [|n IH]; intros cpu Hwf Hov a.
  - cbn [tail_run down_from seq rev fold_left].
    replace ((dst <=? a) && (a <? dst + Z.of_nat 0)) with false; [reflexivity|].
    symmetry. apply andb_false_iff.
    destruct (Z.leb_spec dst a); [right; apply Z.ltb_ge; lia|left; reflexivity].
  - rewrite tail_run_S.
    set (cpu' := write_int cpu (ptr_add dst n) (tail_value src dst f cpu n)).
    assert (Hwf' : wf_cpu cpu')
      by (apply write_int_wf; [exact Hwf|apply tail_value_ok, Hwf]).
    assert (Hother : forall b, b <> ptr_add dst n -> cbyte rho cpu' b = cbyte rho cpu b).
    { intros b Hb. unfold cbyte, read_int, cpu'. rewrite write_int_memory.
      apply Z.eqb_neq in Hb. rewrite Hb. reflexivity. }
    assert (Hsrc : forall z, (z < n)%nat ->
              cbyte rho cpu' (ptr_add src z) = cbyte rho cpu (ptr_add src z)).
    { intros z Hz. apply Hother. intros E. apply (Hov n z); [lia|]. symmetry; exact E. }
    rewrite IH; [|exact Hwf'|intros i j Hij; apply Hov; lia].
    destruct (Z.leb_spec dst a) as [L1|L1];
      destruct (Z.ltb_spec a (dst + Z.of_nat n)) as [L2|L2];
      destruct (Z.ltb_spec a (dst + Z.of_nat (S n))) as [L3|L3];
      cbn [andb]; try lia.
    + assert (Ho : (Z.to_nat (a - dst) < n)%nat) by lia.
      rewrite (blocked_ext rho cpu cpu' src f)
        by (intros z Hz; apply Hsrc; lia).
      rewrite (Hsrc _ Ho). rewrite Hother by (unfold ptr_add; lia). reflexivity.
    + assert (Ea : a = ptr_add dst n) by (unfold ptr_add; lia). subst a.
      replace (Z.to_nat (ptr_add dst n - dst)) with n by (unfold ptr_add; lia).
      rewrite <- tail_value_eval by exact Hwf.
      unfold cbyte at 1. unfold read_int, cpu'.
      rewrite write_int_memory, Z.eqb_refl.
      apply as_byte_value. unfold in_range.
      rewrite tail_value_eval by exact Hwf.
      destruct (blocked rho cpu src f n); apply read_in_range, Hwf.
    + apply Hother. unfold ptr_add. lia.
    + apply Hother. unfold ptr_add. lia.
Qed.

Lemma strcpy_copy_full rho cs :
  holds rho cs ->
  forall T fuel cpu dst src,
    first_null cpu cs src T ->
    (dst + Z.of_nat T < src \/ src + Z.of_nat T < dst) ->
    (T < fuel)%nat ->
    exists n cpu1,
      (n <= T)%nat /\
      strcpy_copy fuel cpu cs dst src (read_int cpu src)
      = Some (cpu1, dst + Z.of_nat n, src + Z.of_nat n,
              read_int cpu1 (src + Z.of_nat n)) /\
      first_null cpu1 cs (src + Z.of_nat n) (T - n) /\
      (forall a, memory cpu1 a =
                 if (dst <=? a) && (a <? dst + Z.of_nat n)
                 then as_byte (memory cpu (src + (a - dst)))
                 else memory cpu a) /\
      (forall k, (k < n)%nat -> cbyte rho cpu (ptr_add src k) <> 0).
Proof.
  intros Hcs.
  induction T as [|T IH]; intros fuel cpu dst src HT Hov Hf;
    (destruct fuel as [|fuel]; [lia|]);
    destruct (not_NULL (read_int cpu src) cs) eqn:E.
  1: { exfalso. destruct HT as [HT _]. rewrite ptr_add_0 in HT.
       exact (not_NULL_eval rho cs _ Hcs E (is_NULL_eval rho cs _ Hcs HT)). }
  1, 3: exists 0%nat, cpu; (split; [lia|]);
    cbn [strcpy_copy]; rewrite E; cbn [Z.of_nat];
    rewrite !Z.add_0_r, Nat.sub_0_r;
    (split; [reflexivity|]); (split; [exact HT|]); split;
    [ intros a;
      replace ((dst <=? a) && (a <? dst)) with false; [reflexivity|];
      symmetry; apply andb_false_iff;
      destruct (Z.leb_spec dst a); [right; apply Z.ltb_ge; lia|left; reflexivity]
    | intros k Hk; lia ].
  set (cpu' := write_int cpu dst (read_int cpu src)).
  assert (Hsame : forall m, (m <= T)%nat ->
            read_int cpu' (ptr_add (src + 1) m) = read_int cpu (ptr_add src (S m))).
  { intros m Hm. unfold read_int, cpu'. rewrite write_int_memory.
    rewrite <- ptr_add_S.
    replace (ptr_add src (S m) =? dst) with false; [reflexivity|].
    symmetry. apply Z.eqb_neq. unfold ptr_add. lia. }
  destruct (IH fuel cpu' (dst + 1) (src + 1))
    as (n & cpu1 & Hn & Ec & H1 & Hm & Hnz).
  - destruct HT as [HT HT']. split.
    + rewrite Hsame by lia. exact HT.
    + intros m Hm. rewrite Hsame by lia. apply HT'. lia.
  - lia.
  - lia.
  - exists (S n), cpu1. split; [lia|].
    cbn [strcpy_copy]. rewrite E. fold cpu'.
    replace (dst + Z.of_nat (S n)) with (dst + 1 + Z.of_nat n) by lia.
    replace (src + Z.of_nat (S n)) with (src + 1 + Z.of_nat n) by lia.
    split; [exact Ec|]. split; [exact H1|]. split.
    + intros a. rewrite Hm. unfold cpu'. rewrite !write_int_memory.
      destruct (Z.leb_spec (dst + 1) a);
        destruct (Z.ltb_spec a (dst + 1 + Z.of_nat n));
        destruct (Z.leb_spec dst a); cbn [andb]; try lia.
      * replace (src + 1 + (a - (dst + 1)) =? dst) with false
          by (symmetry; apply Z.eqb_neq; lia).
        f_equal. f_equal. lia.
      * replace (a =? dst) with false by (symmetry; apply Z.eqb_neq; lia).
        reflexivity.
      * replace (a =? dst) with true by (symmetry; apply Z.eqb_eq; lia).
        replace (a <? dst + 1 + Z.of_nat n) with true
          by (symmetry; apply Z.ltb_lt; lia).
        unfold read_int. f_equal. f_equal. lia.
      * replace (a =? dst) with false by (symmetry; apply Z.eqb_neq; lia).
        reflexivity.
    + intros k Hk. destruct k as [|k].
      * rewrite ptr_add_0. exact (not_NULL_eval rho cs _ Hcs E).
      * unfold cbyte. rewrite <- Hsame by lia. apply Hnz. lia.
Qed.

Lemma between_lt_true lo hi a : lo <= a -> a < hi -> (lo <=? a) && (a <? hi) = true.
Proof.
  intros H1 H2. apply andb_true_iff. split; [apply Z.leb_le|apply Z.ltb_lt]; lia.
Qed.

Lemma between_lt_false lo hi a : a < lo \/ hi <= a -> (lo <=? a) && (a <? hi) = false.
Proof.
  intros H. apply andb_false_iff.
  destruct (Z.leb_spec lo a); [right; apply Z.ltb_ge; lia|left; reflexivity].
Qed.

Lemma between_le_true lo hi a : lo <= a -> a <= hi -> (lo <=? a) && (a <=? hi) = true.
Proof.
  intros H1 H2. apply andb_true_iff. split; apply Z.leb_le; lia.
Qed.

Lemma between_le_false lo hi a : a < lo \/ hi < a -> (lo <=? a) && (a <=? hi) = false.
Proof.
  intros H. apply andb_false_iff.
  destruct (Z.leb_spec lo a); [right; apply Z.leb_gt; lia|left; reflexivity].
Qed.

Lemma strcpy_copies_string_aux fuel st dst src T rho :
  wf_cpu (cpu st) ->
  holds rho (constraints st) ->
  first_null (cpu st) (constraints st) src T ->
  (dst + Z.of_nat T < src \/ src + Z.of_nat T < dst) ->
  (T < fuel)%nat ->
  exists st' len,
    strcpy fuel st (VInt dst) (VInt src) = (Return (VInt dst), st') /\
    (len <= T)%nat /\
    length_under rho (cpu st) src len /\
    (forall a,
        cbyte rho (cpu st') a =
        if (dst <=? a) && (a <=? dst + Z.of_nat len)
        then cbyte rho (cpu st) (src + (a - dst))
        else cbyte rho (cpu st) a) /\
    (forall a, ~ (dst <= a <= dst + Z.of_nat T) ->
               memory (cpu st') a = memory (cpu st) a).
Proof.
  intros Hwf Hcs HT Hov Hf.
  destruct (strcpy_copy_full rho _ Hcs T fuel (cpu st) dst src HT Hov Hf)
    as (n & cpu1 & Hn & Ec & H1 & Hm1 & Hnz1).
  assert (Hwf1 : wf_cpu cpu1).
  { apply (strcpy_copy_wf _ _ _ _ _ _ _ _ _ _ Hwf (read_int_ok _ _ Hwf) Ec). }
  assert (Hc1 : forall a,
             cbyte rho cpu1 a =
             if (dst <=? a) && (a <? dst + Z.of_nat n)
             then cbyte rho (cpu st) (src + (a - dst))
             else cbyte rho (cpu st) a).
  { intros a. unfold cbyte, read_int. rewrite Hm1.
    destruct ((dst <=? a) && (a <? dst + Z.of_nat n)); [|reflexivity].
    apply as_byte_value. apply (read_in_range rho (cpu st) _ Hwf). }
  assert (Hsrc : forall k, (k <= T)%nat ->
             cbyte rho cpu1 (ptr_add src k) = cbyte rho (cpu st) (ptr_add src k)).
  { intros k Hk. rewrite Hc1.
    replace ((dst <=? ptr_add src k) && (ptr_add src k <? dst + Z.of_nat n))
      with false; [reflexivity|].
    symmetry. apply andb_false_iff. unfold ptr_add.
    destruct (Z.leb_spec dst (src + Z.of_nat k)); [right; apply Z.ltb_ge; lia|].
    left; reflexivity. }
  assert (Hfz : _find_zero fuel cpu1 (constraints st) (src + Z.of_nat n)
                = Some (T - n)%nat).
  { apply find_zero_iff. split; [exact H1|lia]. }
  assert (Hzero : cbyte rho cpu1 (ptr_add (src + Z.of_nat n) (T - n)) = 0).
  { apply (is_NULL_eval rho _ _ Hcs (proj1 H1)). }
  destruct (strcpy_cases fuel st dst src)
    as [E|(cpu1' & dst1 & src1 & Ec' & _ &
           [[Ez E]|[(_ & Ez & _)|(_ & null & Ez & L & E)]])].
  - exfalso. unfold strcpy in E. rewrite Ec in E.
    destruct (is_NULL _ _); [discriminate|].
    rewrite find_zeros_spec, Hfz in E.
    destruct (last_item _); [|discriminate].
    destruct (fold_left _ _ _) as [c [l|]]; discriminate.
  - rewrite Ec in Ec'. injection Ec' as <- <- <-.
    assert (Zn : cbyte rho cpu1 (src + Z.of_nat n) = 0)
      by apply (is_NULL_eval rho _ _ Hcs Ez).
    assert (n_is_T : cbyte rho (cpu st) (ptr_add src n) = 0).
    { rewrite <- Hsrc by lia. exact Zn. }
    eexists. exists n. split; [exact E|]. split; [exact Hn|].
    split; [split; [exact n_is_T|exact Hnz1]|]. cbn [with_cpu cpu]. split.
    + intros a. unfold cbyte at 1. unfold read_int. rewrite write_int_memory.
      destruct (Z.eqb_spec a (dst + Z.of_nat n)) as [->|Hne].
      * replace ((dst <=? dst + Z.of_nat n)
                 && (dst + Z.of_nat n <=? dst + Z.of_nat n)) with true
          by (symmetry; apply andb_true_iff; split; apply Z.leb_le; lia).
        replace (src + (dst + Z.of_nat n - dst)) with (ptr_add src n)
          by (unfold ptr_add; lia).
        rewrite n_is_T. reflexivity.
      * fold (read_int cpu1 a). fold (cbyte rho cpu1 a). rewrite Hc1.
        destruct (Z.leb_spec dst a); destruct (Z.ltb_spec a (dst + Z.of_nat n));
          destruct (Z.leb_spec a (dst + Z.of_nat n)); cbn [andb];
          try reflexivity; lia.
    + intros a Ha. rewrite write_int_memory, Hm1.
      replace (a =? dst + Z.of_nat n) with false
        by (symmetry; apply Z.eqb_neq; lia).
      replace ((dst <=? a) && (a <? dst + Z.of_nat n)) with false; [reflexivity|].
      symmetry. apply andb_false_iff.
      destruct (Z.leb_spec dst a); [right; apply Z.ltb_ge; lia|left; reflexivity].
  - rewrite Ec in Ec'. injection Ec' as <- <- <-.
    rewrite find_zeros_spec, Hfz in Ez. discriminate.
  - rewrite Ec in Ec'. injection Ec' as <- <- <-.
    assert (null = (T - n)%nat) as ->.
    { rewrite find_zeros_spec, Hfz in Ez.
      assert (Ez' : filter (can_zero cpu1 (constraints st) (src + Z.of_nat n))
                           (seq 0 (S (T - n))) =
                    filter (can_zero cpu1 (constraints st) (src + Z.of_nat n))
                           (seq 0 (S null))) by congruence.
      rewrite <- Ez' in L. rewrite filter_seq_S in L.
      rewrite (is_NULL_can_zero cpu1 _ _ _ (ex_intro _ rho Hcs) (proj1 H1)) in L.
      rewrite last_item_snoc in L. congruence. }
    set (S1 := src + Z.of_nat n) in *. set (D1 := dst + Z.of_nat n) in *.
    set (f := can_zero cpu1 (constraints st) S1) in *.
    destruct (least_zero (fun z => cbyte rho cpu1 (ptr_add S1 z)) (S (T - n)))
      as (l & Hl & Zl & Hnzl); [exists (T - n)%nat; split; [lia|exact Hzero]|].
    cbv beta in *.
    assert (Hlen1 : length_under rho cpu1 S1 l) by (split; assumption).
    assert (Hptr : forall k, ptr_add S1 k = ptr_add src (n + k))
      by (intros k; unfold S1, ptr_add; lia).
    eexists. exists (n + l)%nat. split; [exact E|]. split; [lia|].
    split; [|cbn [with_cpu cpu]; split].
    + split.
      * rewrite <- Hsrc by lia. rewrite <- Hptr. exact Zl.
      * intros k Hk. destruct (Nat.lt_ge_cases k n) as [Lk|Gk];
          [apply Hnz1, Lk|].
        rewrite <- Hsrc by lia.
        replace k with (n + (k - n))%nat by lia. rewrite <- Hptr.
        apply Hnzl. lia.
    + intros a.
      rewrite (tail_run_value rho S1 D1 f (S (T - n)) cpu1 Hwf1)
        by (intros i j Hij; unfold S1, D1, ptr_add; lia).
      rewrite (fun o => blocked_iff rho cpu1 S1 f l o
                          (fun z Hz => zero_can_zero rho cpu1 _ S1 z Hcs Hz) Hlen1).
      rewrite (Hc1 a).
      destruct (Z_lt_le_dec a D1) as [B1|B1];
        [|destruct (Z_lt_le_dec a (D1 + Z.of_nat (S (T - n)))) as [B2|B2]].
      * rewrite (between_lt_false D1) by lia.
        destruct (Z_lt_le_dec a dst) as [B3|B3]; unfold D1 in *.
        -- rewrite between_lt_false, between_le_false by lia. reflexivity.
        -- rewrite between_lt_true, between_le_true by lia. reflexivity.
      * rewrite (between_lt_true D1) by lia. unfold D1 in *.
        rewrite (between_lt_false dst (dst + Z.of_nat n)) by lia.
        destruct (Nat.ltb_spec l (Z.to_nat (a - (dst + Z.of_nat n)))) as [B3|B3].
        -- rewrite between_le_false by lia. reflexivity.
        -- rewrite between_le_true by lia.
           rewrite Hptr, Hsrc by lia. f_equal. unfold ptr_add. lia.
      * rewrite (between_lt_false D1) by lia. unfold D1 in *.
        rewrite between_lt_false, between_le_false by lia. reflexivity.
    + intros a Ha.
      rewrite tail_run_frame by (intros o Ho; unfold D1, ptr_add; lia).
      rewrite Hm1. rewrite between_lt_false by (unfold D1; lia). reflexivity.
Qed.

(** When the destination range does not overlap the source string,
    under every assignment that satisfies the constraints the memory
    after [strcpy] reads as the C library's [strcpy] leaves it: the
    destination holds the source bytes up to and including the first one
    that is zero under the assignment, every other byte has the value it
    had, and no cell outside the destination range (up to the definite
    terminator offset) is touched at all. *)
Theorem strcpy_copies_string fuel st dst src T rho :
  wf_cpu (cpu st) ->
  holds rho (constraints st) ->
  first_null (cpu st) (constraints st) src T ->
  (dst + Z.of_nat T < src \/ src + Z.of_nat T < dst) ->
  (T < fuel)%nat ->
  exists st' len,
    strcpy fuel st (VInt dst) (VInt src) = (Return (VInt dst), st') /\
    (len <= T)%nat /\
    length_under rho (cpu st) src len /\
    (forall a,
        cbyte rho (cpu st') a =
        if (dst <=? a) && (a <=? dst + Z.of_nat len)
        then cbyte rho (cpu st) (src + (a - dst))
        else cbyte rho (cpu st) a) /\
    (forall a, ~ (dst <= a <= dst + Z.of_nat T) ->
               memory (cpu st') a = memory (cpu st) a).
Proof. exact (strcpy_copies_string_aux fuel st dst src T rho). Qed.


Lemma strcpy_copies_string_witness :
  exists st' len,
    strcpy 5 maybe_empty (VInt 100) (VInt 200) = (Return (VInt 100), st') /\
    (len <= 1)%nat /\
    length_under (fun _ _ => 0) (cpu maybe_empty) 200 len /\
    (forall a,
        cbyte (fun _ _ => 0) (cpu st') a =
        if (100 <=? a) && (a <=? 100 + Z.of_nat len)
        then cbyte (fun _ _ => 0) (cpu maybe_empty) (200 + (a - 100))
        else cbyte (fun _ _ => 0) (cpu maybe_empty) a) /\
    (forall a, ~ (100 <= a <= 100 + Z.of_nat 1) ->
               memory (cpu st') a = memory (cpu maybe_empty) a).
Proof.
  apply (strcpy_copies_string 5 maybe_empty 100 200 1 (fun _ _ => 0)
                              maybe_empty_wf).
  - constructor.
  - exact maybe_empty_first_null.
  - left. simpl. lia.
  - lia.
Defined.

(** ** Frame of [strcpy] on every input *)

Lemma strcpy_copy_below cs :
  forall fuel cpu dst src c cpu' dst' src' c',
    strcpy_copy fuel cpu cs dst src c = Some (cpu', dst', src', c') ->
    dst <= dst' /\ forall a, a < dst -> memory cpu' a = memory cpu a.
Proof.
  induction fuel as [|fuel IH]; intros cpu dst src c cpu' dst' src' c' H;
    [discriminate|].
  cbn [strcpy_copy] in H. destruct (not_NULL c cs).
  - apply IH in H as [Hd Hm]. split; [lia|].
    intros a Ha. rewrite Hm by lia. rewrite write_int_memory.
    replace (a =? dst) with false by (symmetry; apply Z.eqb_neq; lia).
    reflexivity.
  - injection H as <- <- _ _. split; [lia|reflexivity].
Qed.

Lemma strcpy_copy_memory_below cs :
  forall fuel cpu dst src c a,
    a < dst ->
    memory (strcpy_copy_memory fuel cpu cs dst src c) a = memory cpu a.
Proof.
  induction fuel as [|fuel IH]; intros cpu dst src c a Ha; [reflexivity|].
  cbn [strcpy_copy_memory]. destruct (not_NULL c cs); [|reflexivity].
  rewrite IH by lia. rewrite write_int_memory.
  replace (a =? dst) with false by (symmetry; apply Z.eqb_neq; lia).
  reflexivity.
Qed.

(** Whatever the memory, the constraints and the fuel, and whether or
    not the ranges overlap: when [strcpy] returns it returns the
    destination pointer it was given, and however it ends it has written
    no cell below that pointer. *)
Theorem strcpy_frame_below fuel st dst src :
  (forall r st', strcpy fuel st (VInt dst) (VInt src) = (Return r, st') ->
                 r = VInt dst) /\
  (forall a, a < dst ->
     memory (cpu (snd (strcpy fuel st (VInt dst) (VInt src)))) a
     = memory (cpu st) a).
Proof.
  destruct (strcpy_cases fuel st dst src)
    as [E|(cpu1 & dst1 & src1 & Ec & _ &
           [[_ E]|[(_ & _ & E)|(_ & null & _ & _ & E)]])];
    rewrite E; (split; [intros r st' H; congruence|]);
    intros a Ha; cbn [snd with_cpu cpu];
    [apply strcpy_copy_memory_below, Ha|..];
    apply strcpy_copy_below in Ec as [Hd Hm].
  - rewrite write_int_memory.
    replace (a =? dst1) with false by (symmetry; apply Z.eqb_neq; lia).
    apply Hm, Ha.
  - apply Hm, Ha.
  - rewrite tail_run_frame by (intros o Ho; unfold ptr_add; lia).
    apply Hm, Ha.
Qed.

(** ** [strlen] after [strcpy] *)

Lemma length_under_unique rho cpu s l1 l2 :
  length_under rho cpu s l1 -> length_under rho cpu s l2 -> l1 = l2.
Proof.
  intros [Z1 N1] [Z2 N2].
  destruct (Nat.lt_trichotomy l1 l2) as [L|[E|L]]; [|exact E|].
  - exfalso. exact (N2 l1 L Z1).
  - exfalso. exact (N1 l2 L Z2).
Qed.

(** When the ranges do not overlap and the scan of the destination
    ends, under every assignment that satisfies the constraints
    [strlen] of the destination after [strcpy] has the value [strlen]
    of the source had before: the true length of the source string
    under that assignment. *)
Theorem strlen_after_strcpy fuel st dst src T T' rho :
  wf_cpu (cpu st) ->
  holds rho (constraints st) ->
  first_null (cpu st) (constraints st) src T ->
  (dst + Z.of_nat T < src \/ src + Z.of_nat T < dst) ->
  (T < fuel)%nat ->
  first_null (cpu (snd (strcpy fuel st (VInt dst) (VInt src))))
             (constraints st) dst T' ->
  (T' < fuel)%nat ->
  exists st' v v' len,
    strlen fuel st (VInt src) = (Return v, st) /\
    strcpy fuel st (VInt dst) (VInt src) = (Return (VInt dst), st') /\
    strlen fuel st' (VInt dst) = (Return v', st') /\
    length_under rho (cpu st) src len /\
    ret_value rho (address_bit_size (cpu st)) v
    = Z.of_nat len mod modulus (address_bit_size (cpu st)) /\
    ret_value rho (address_bit_size (cpu st)) v'
    = Z.of_nat len mod modulus (address_bit_size (cpu st)).
Proof.
  intros Hwf Hcs HT Hov Hf HT' Hf'.
  destruct (strcpy_copies_string_aux fuel st dst src T rho Hwf Hcs HT Hov Hf)
    as (st' & len & E & Hlen & Hl & Hval & _).
  rewrite E in HT'. cbn [snd] in HT'.
  assert (Ecs : constraints st' = constraints st /\
                address_bit_size (cpu st') = address_bit_size (cpu st)).
  { destruct (strcpy_cases fuel st dst src)
      as [E'|(cpu1 & dst1 & src1 & Ec & _ &
             [[_ E']|[(_ & _ & E')|(_ & null & _ & _ & E')]])];
      rewrite E' in E; try discriminate;
      injection E as <-; (split; [reflexivity|]); cbn [with_cpu cpu];
      apply strcpy_copy_inv in Ec as (_ & _ & Ha); cbn [write_int address_bit_size];
      [exact Ha|rewrite tail_run_address_bit_size; exact Ha]. }
  destruct Ecs as [Ecs Ew].
  destruct (strlen_value_aux fuel st src T rho Hcs HT Hf)
    as (v & l1 & E1 & _ & Hl1 & V1).
  rewrite <- Ecs in HT', Hcs.
  destruct (strlen_value_aux fuel st' dst T' rho Hcs HT' Hf')
    as (v' & l2 & E2 & _ & Hl2 & V2).
  assert (Hl' : length_under rho (cpu st') dst len).
  { destruct Hl as [Z0 N0]. split.
    - rewrite Hval, between_le_true by (unfold ptr_add; lia).
      replace (src + (ptr_add dst len - dst)) with (ptr_add src len)
        by (unfold ptr_add; lia).
      exact Z0.
    - intros k Hk. rewrite Hval, between_le_true by (unfold ptr_add; lia).
      replace (src + (ptr_add dst k - dst)) with (ptr_add src k)
        by (unfold ptr_add; lia).
      apply N0, Hk. }
  rewrite (length_under_unique _ _ _ _ _ Hl1 Hl) in V1.
  rewrite (length_under_unique _ _ _ _ _ Hl2 Hl') in V2.
  rewrite Ew in V2.
  exists st', v, v', len. auto 10.
Qed.


Lemma copied_first_null :
  first_null (cpu (snd (strcpy 5 maybe_empty (VInt 100) (VInt 200)))) [] 100 2.
Proof.
  split; [vm_compute; reflexivity|]. intros m Hm.
  destruct m as [|[|m]]; [vm_compute; reflexivity|vm_compute; reflexivity|lia].
Defined.

Lemma strlen_after_strcpy_witness :
  exists st' v v' len,
    strlen 5 maybe_empty (VInt 200) = (Return v, maybe_empty) /\
    strcpy 5 maybe_empty (VInt 100) (VInt 200) = (Return (VInt 100), st') /\
    strlen 5 st' (VInt 100) = (Return v', st') /\
    length_under (fun _ _ => 0) (cpu maybe_empty) 200 len /\
    ret_value (fun _ _ => 0) 64 v = Z.of_nat len mod modulus 64 /\
    ret_value (fun _ _ => 0) 64 v' = Z.of_nat len mod modulus 64.
Proof.
  apply (strlen_after_strcpy 5 maybe_empty 100 200 1 2 (fun _ _ => 0)
                             maybe_empty_wf).
  - constructor.
  - exact maybe_empty_first_null.
  - left. simpl. lia.
  - lia.
  - exact copied_first_null.
  - lia.
Defined.

Lemma strcpy_frame_below_witness :
  memory (cpu (snd (strcpy 5 letter_a (VInt 101) (VInt 100)))) 100
  = memory (cpu letter_a) 100.
Proof.
  apply (proj2 (strcpy_frame_below 5 letter_a 101 100)). lia.
Defined.

(** ** The bytes of a copy that does not end *)

Lemma strcpy_copy_memory_overlap cs :
  forall fuel cpu src k,
    1 <= k <= Z.of_nat fuel ->
    memory (strcpy_copy_memory fuel cpu cs (src + 1) src (VInt 97)) (src + k)
    = VInt 97.
Proof.
  induction fuel as [|fuel IH]; intros cpu src k Hk; [lia|].
  cbn [strcpy_copy_memory not_NULL]. change (negb (97 =? 0)) with true.
  cbv iota.
  replace (read_int (write_int cpu (src + 1) (VInt 97)) (src + 1))
    with (VInt 97)
    by (unfold read_int; rewrite write_int_memory, Z.eqb_refl; reflexivity).
  destruct (Z.eq_dec k 1) as [->|Hne].
  - rewrite strcpy_copy_memory_below by lia.
    rewrite write_int_memory, Z.eqb_refl. reflexivity.
  - replace (src + k) with (src + 1 + (k - 1)) by lia.
    apply IH. lia.
Qed.

(** With the string "a" at address 100 and the destination one byte
    further, [strcpy] is still copying after any number of passes, and
    each pass has left its byte in memory: after [fuel] passes the
    [fuel] cells from address 101 hold the letter. *)
Lemma strcpy_overlap_keeps_writes fuel k :
  1 <= k <= Z.of_nat fuel ->
  fst (strcpy fuel letter_a (VInt 101) (VInt 100)) = OutOfFuel /\
  memory (cpu (snd (strcpy fuel letter_a (VInt 101) (VInt 100)))) (100 + k)
  = VInt 97.
Proof.
  intros Hk. unfold strcpy.
  replace (strcpy_copy fuel (cpu letter_a) (constraints letter_a) 101 100
                       (read_int (cpu letter_a) 100))
    with (@None (Cpu * Z * Z * val))
    by (symmetry; exact (strcpy_copy_overlap [] fuel (cpu letter_a) 100)).
  split; [reflexivity|]. cbn [snd with_cpu cpu].
  exact (strcpy_copy_memory_overlap [] fuel (cpu letter_a) 100 k Hk).
Qed.

(** ** When [strlen] returns an integer *)

Lemma constant_not_null cs w v :
  is_NULL (VSym (BitVecConstant w v)) cs = false -> (v =? 0) = false.
Proof.
  intros Hn. cbn [is_NULL] in Hn. apply negb_false_iff in Hn.
  apply can_be_true_sound in Hn as (rho' & _ & Hb).
  apply Z.eqb_neq. intros ->.
  cbn [beval eval cast width_of] in Hb.
  rewrite Z.eqb_refl in Hb. discriminate.
Qed.

Lemma strlen_step_plain cpu cs s ret o :
  issymbolic (read_int cpu (ptr_add s o)) = false \/
  isconstant (read_int cpu (ptr_add s o)) = true ->
  is_NULL (read_int cpu (ptr_add s o)) cs = false ->
  strlen_step cpu s ret o = ret.
Proof.
  unfold strlen_step.
  destruct (read_int cpu (ptr_add s o)) as [z|e]; [reflexivity|].
  intros [H|H] Hn; [discriminate|].
  destruct e; try discriminate.
  cbn [issymbolic eq ITEBV]. rewrite (constant_not_null _ _ _ Hn). reflexivity.
Qed.

Lemma strlen_step_builds cpu s ret o :
  issymbolic (read_int cpu (ptr_add s o)) = true ->
  isconstant (read_int cpu (ptr_add s o)) = false ->
  issymbolic (strlen_step cpu s ret o) = true.
Proof.
  unfold strlen_step.
  destruct (read_int cpu (ptr_add s o)) as [z|e]; [discriminate|].
  intros _ H. destruct e; try discriminate; reflexivity.
Qed.

Lemma strlen_step_symbolic cpu cs s ret o :
  is_NULL (read_int cpu (ptr_add s o)) cs = false ->
  issymbolic ret = true -> issymbolic (strlen_step cpu s ret o) = true.
Proof.
  intros Hn H.
  destruct (issymbolic (read_int cpu (ptr_add s o))) eqn:Es.
  - destruct (isconstant (read_int cpu (ptr_add s o))) eqn:Ek.
    + rewrite (strlen_step_plain cpu cs) by auto. exact H.
    + apply strlen_step_builds; assumption.
  - rewrite (strlen_step_plain cpu cs) by auto. exact H.
Qed.

Lemma strlen_walk_integer cpu cs s :
  forall l ret,
    (forall o, In o l -> is_NULL (read_int cpu (ptr_add s o)) cs = false) ->
    (forall o, In o l ->
       issymbolic (read_int cpu (ptr_add s o)) = false \/
       isconstant (read_int cpu (ptr_add s o)) = true) ->
    fold_left (strlen_step cpu s) l ret = ret.
Proof.
  induction l as [|o l IH]; intros ret Hn H; [reflexivity|].
  cbn [fold_left].
  rewrite (strlen_step_plain cpu cs)
    by (try apply H; try apply Hn; left; reflexivity).
  apply IH; intros o' Ho'; [apply Hn|apply H]; right; exact Ho'.
Qed.

Lemma strlen_walk_symbolic cpu cs s :
  forall l ret,
    (forall o, In o l -> is_NULL (read_int cpu (ptr_add s o)) cs = false) ->
    issymbolic ret = true \/
    (exists o, In o l /\ issymbolic (read_int cpu (ptr_add s o)) = true /\
               isconstant (read_int cpu (ptr_add s o)) = false) ->
    issymbolic (fold_left (strlen_step cpu s) l ret) = true.
Proof.
  induction l as [|o l IH]; intros ret Hn H.
  - destruct H as [H|(o & [] & _)]. exact H.
  - cbn [fold_left].
    apply IH; [intros o' Ho'; apply Hn; right; exact Ho'|].
    destruct H as [H|(o' & [<-|Hin] & Ho' & Hk)].
    + left. apply (strlen_step_symbolic cpu cs); [|exact H].
      apply Hn. left; reflexivity.
    + left. apply strlen_step_builds; assumption.
    + right. exists o'. auto.
Qed.

(** X14.  [strlen] returns a Python integer, the offset of the definite
    terminator, exactly when every byte before that offset is an integer
    or a constant expression, on which [byt == 0] is a Python [bool] and
    no conditional is built; with an expression that is not a constant
    there it returns an expression. *)
Theorem strlen_integer_iff fuel st s n :
  first_null (cpu st) (constraints st) s n ->
  (n < fuel)%nat ->
  exists v,
    strlen fuel st (VInt s) = (Return v, st) /\
    ((forall k, (k < n)%nat ->
        issymbolic (read_int (cpu st) (ptr_add s k)) = false \/
        isconstant (read_int (cpu st) (ptr_add s k)) = true)
     -> v = VInt (Z.of_nat n)) /\
    ((exists k, (k < n)%nat /\
                issymbolic (read_int (cpu st) (ptr_add s k)) = true /\
                isconstant (read_int (cpu st) (ptr_add s k)) = false)
     -> issymbolic v = true).
Proof.
  intros HT Hf. unfold strlen.
  rewrite (proj2 (find_zero_iff _ _ s fuel n) (conj HT Hf)).
  assert (Hn : forall o, In o (down_from n) ->
                 is_NULL (read_int (cpu st) (ptr_add s o)) (constraints st) = false).
  { intros o Ho. apply (proj2 HT). unfold down_from in Ho.
    apply in_rev in Ho. apply in_seq in Ho. lia. }
  eexists. split; [reflexivity|]. split.
  - intros H. apply (strlen_walk_integer _ (constraints st)); [exact Hn|].
    intros o Ho. apply H. unfold down_from in Ho.
    apply in_rev in Ho. apply in_seq in Ho. lia.
  - intros (k & Hk & Hs & Hc).
    apply (strlen_walk_symbolic _ (constraints st)); [exact Hn|]. right.
    exists k. split; [|split; assumption].
    unfold down_from. apply in_rev. rewrite rev_involutive. apply in_seq. lia.
Qed.

Lemma strlen_integer_iff_witness :
  exists v,
    strlen 5 {| cpu := one_symbolic; constraints := [] |} (VInt 100)
    = (Return v, {| cpu := one_symbolic; constraints := [] |}) /\
    issymbolic v = true.
Proof.
  destruct (strlen_integer_iff 5 {| cpu := one_symbolic; constraints := [] |}
                               100 1) as (v & E & _ & H).
  - split; [reflexivity|]. intros m Hm.
    destruct m as [|m]; [vm_compute; reflexivity|lia].
  - lia.
  - exists v. split; [exact E|]. apply H.
    exists 0%nat. split; [lia|split; reflexivity].
Defined.
